(** * fzf_but_typed.compatibility: version parsing and compatibility check

    A shallow embedding of [src/fzf_but_typed/compatibility.py] together
    with the small part of the Python runtime it runs on ([str], [int],
    list indexing, [re], [bisect], exceptions), followed by the properties
    of the parser [SemVer.from_str] and of the classifier
    [_test_compatibility].

    Conventions.  Python [int] is [Z] (unbounded); the conversions
    between ints and decimal texts, [int(s)] and [str(n)], carry the
    limit of [sys.int_info.default_max_str_digits] digits that CPython
    3.11 and later apply (the module needs 3.11 for [typing.Self] and
    [add_note], and leaves the limit alone).  Python [str] is [string]; a
    character is one 8-bit code point, which covers every text the
    external tool prints.  A Python computation is a value of
    [M A]: the lines it printed on the diagnostic stream and either the
    value it returned or the exception it raised. *)

From Stdlib Require Import ZArith List String Ascii Bool Lia.
From Stdlib Require Import Decimal DecimalString DecimalZ DecimalPos.
From Equations Require Import Equations.
Import ListNotations.

#[local] Open Scope string_scope.
#[local] Open Scope Z_scope.

(* ===================================================================== *)
(** ** The Python runtime used by the module *)
(* ===================================================================== *)

Module Py.

(** Exceptions the module can raise or meet.  [ValueError] carries its
    message and the notes attached with [add_note]. *)
Inductive exn : Type :=
| ValueError (msg : string) (notes : list string)
| IndexError (msg : string)
| RuntimeError (msg : string)
| SystemExit.

Inductive result (A : Type) : Type :=
| Return (a : A)
| Raise (e : exn).
Arguments Return {A} a.
Arguments Raise {A} e.

(** A computation: what went to [sys.stderr], and how it ended. *)
Definition M (A : Type) : Type := (list string * result A)%type.

Definition ret {A} (a : A) : M A := ([], Return a).

Definition raise {A} (e : exn) : M A := ([], Raise e).

Definition bind {A B} (m : M A) (k : A -> M B) : M B :=
  match m with
  | (out, Return a) => let '(out', r) := k a in ((out ++ out')%list, r)
  | (out, Raise e) => (out, Raise e)
  end.

(** [print(line, file=sys.stderr)] *)
Definition print_stderr (line : string) : M unit := ([line], Return tt).

(** [if c: body], where [body] may raise *)
Definition when (c : bool) (body : M unit) : M unit :=
  if c then body else ret tt.

(** [try: m  except ValueError as error: handler(error)] *)
Definition try_except_ValueError {A} (m : M A) (handler : exn -> M A) : M A :=
  match m with
  | (out, Raise (ValueError msg notes)) =>
      let '(out', r) := handler (ValueError msg notes) in ((out ++ out')%list, r)
  | other => other
  end.

(** [error.add_note(note)] *)
Definition add_note (e : exn) (note : string) : exn :=
  match e with
  | ValueError msg notes => ValueError msg (notes ++ [note])%list
  | other => other
  end.

(** [l[i]] on a list: a negative index counts from the end, an index out
    of range raises [IndexError]. *)
Definition getitem {A} (l : list A) (i : Z) : M A :=
  let n := Z.of_nat (List.length l) in
  let j := if i <? 0 then i + n else i in
  if (j <? 0) || (n <=? j) then raise (IndexError "list index out of range")
  else match nth_error l (Z.to_nat j) with
       | Some a => ret a
       | None => raise (IndexError "list index out of range")
       end.

(** [len(l)] *)
Definition len {A} (l : list A) : Z := Z.of_nat (List.length l).

(** [c.isspace()] for an 8-bit code point: tab to carriage return, the
    four separators 0x1c-0x1f, space, NEL and the no-break space.  It is
    the class of the regular expression's [\s] and of [str.strip]. *)
Definition isspace (c : ascii) : bool :=
  let n := N_of_ascii c in
  ((9 <=? n) && (n <=? 13) || (28 <=? n) && (n <=? 31)
   || (n =? 32) || (n =? 133) || (n =? 160))%N.

(** [c.isdecimal()] for an 8-bit code point: the class of [\d]. *)
Definition isdigit (c : ascii) : bool :=
  let n := N_of_ascii c in ((48 <=? n) && (n <=? 57))%N.

Fixpoint lstrip (s : string) : string :=
  match s with
  | String c s' => if isspace c then lstrip s' else s
  | EmptyString => EmptyString
  end.

Fixpoint rstrip (s : string) : string :=
  match s with
  | EmptyString => EmptyString
  | String c s' =>
      match rstrip s' with
      | EmptyString => if isspace c then EmptyString else String c EmptyString
      | r => String c r
      end
  end.

(** [s.strip()] *)
Definition strip (s : string) : string := rstrip (lstrip s).

(** The decimal numeral of [n]: digits, no leading zero, a minus sign
    for a negative number.  It is the text [str(n)] returns when it
    returns. *)
Definition str_int (n : Z) : string := NilZero.string_of_int (Z.to_int n).

(** [sys.int_info.default_max_str_digits]: the most digits a conversion
    between an int and a decimal text may involve. *)
Definition int_max_str_digits : nat := 4300.

(** The messages of the two conversions when the limit is passed. *)
Definition exceeds_to_str : string :=
  "Exceeds the limit (4300 digits) for integer string conversion; "
  ++ "use sys.set_int_max_str_digits() to increase the limit".

Definition exceeds_to_int (digits : nat) : string :=
  "Exceeds the limit (4300 digits) for integer string conversion: value has "
  ++ str_int (Z.of_nat digits)
  ++ " digits; use sys.set_int_max_str_digits() to increase the limit".

(** The number of decimal digits of [n], its sign apart. *)
Definition ndigits (n : Z) : nat := String.length (str_int (Z.abs n)).

(** [str(n)] and [repr(n)] for an int: its numeral, or [ValueError] when
    it has more digits than the limit. *)
Definition str (n : Z) : M string :=
  if (ndigits n <=? int_max_str_digits)%nat then ret (str_int n)
  else raise (ValueError exceeds_to_str []).

(** [int(s)] on a text of decimal digits, which is all the regular
    expression's groups can hold: the exact value (leading zeros
    allowed), or [ValueError] when the text has more digits than the
    limit, leading zeros counted.  Any other text is answered with
    [ValueError]; no such text reaches [int]. *)
Definition int (s : string) : M Z :=
  match NilZero.uint_of_string s with
  | Some d =>
      if (String.length s <=? int_max_str_digits)%nat then ret (Z.of_uint d)
      else raise (ValueError (exceeds_to_int (String.length s)) [])
  | None => raise (ValueError ("invalid literal for int() with base 10: '" ++ s ++ "'") [])
  end.

End Py.

Import Py.

Declare Scope py_scope.
Delimit Scope py_scope with py.
Notation "x <- m ;; k" := (bind m (fun x => k))
  (at level 61, m at next level, right associativity) : py_scope.
Notation "m ;;; k" := (bind m (fun _ => k))
  (at level 61, right associativity) : py_scope.
#[local] Open Scope py_scope.

(* ===================================================================== *)
(** ** The fragment of [re] that [_RE_SEMVER] is written in *)
(* ===================================================================== *)

Module Re.

(** One-character items. *)
Inductive charset : Type :=
| Digit            (* \d *)
| NonSpace         (* \S *)
| AnyChar          (* .  : anything but a newline *)
| Lit (c : ascii). (* an escaped literal such as \. *)

Definition mem (cs : charset) (c : ascii) : bool :=
  match cs with
  | Digit => isdigit c
  | NonSpace => negb (isspace c)
  | AnyChar => negb (Ascii.eqb c "010"%char)
  | Lit c' => Ascii.eqb c c'
  end.

(** Pattern items, in the order they are written. *)
Inductive node : Type :=
| Bol                                              (* ^ *)
| One (cs : charset)                               (* cs *)
| Rep (name : option string) (min : nat) (cs : charset).
    (* greedy repetition: cs* is [Rep None 0 cs], cs+ is [Rep None 1 cs],
       (?P<name>cs+) is [Rep (Some name) 1 cs] *)

Record match_object : Type := {
  groupdict : list (string * string);
  match_end : nat
}.

Definition record_group (name : option string) (text : string)
    (groups : list (string * string)) : list (string * string) :=
  match name with
  | Some n => (groups ++ [(n, text)])%list
  | None => groups
  end.

(** Greedy repetition with backtracking: take characters of [cs] as long
    as possible, then hand what was taken to the rest of the pattern [k],
    giving characters back one at a time while [k] fails. *)
Fixpoint repeat_greedy {R} (cs : charset) (k : string -> string -> option R)
    (taken rest : string) : option R :=
  match rest with
  | String c rest' =>
      if mem cs c then
        match repeat_greedy cs k (taken ++ String c "") rest' with
        | Some r => Some r
        | None => k taken rest
        end
      else k taken rest
  | EmptyString => k taken rest
  end.

(** Match pattern [p] against [s], the text from offset [pos] on. *)
Fixpoint match_here (p : list node) (pos : nat) (s : string)
    (groups : list (string * string)) : option match_object :=
  match p with
  | [] => Some {| groupdict := groups; match_end := pos |}
  | Bol :: p' => if Nat.eqb pos 0 then match_here p' pos s groups else None
  | One cs :: p' =>
      match s with
      | String c s' => if mem cs c then match_here p' (S pos) s' groups else None
      | EmptyString => None
      end
  | Rep name min cs :: p' =>
      repeat_greedy cs
        (fun taken rest =>
           if Nat.ltb (String.length taken) min then None
           else match_here p' (pos + String.length taken) rest
                  (record_group name taken groups))
        "" s
  end.

(** [pattern.search(text)]: the first offset, from the left, at which the
    pattern matches. *)
Fixpoint search_from (p : list node) (pos : nat) (s : string) : option match_object :=
  match match_here p pos s [] with
  | Some m => Some m
  | None =>
      match s with
      | String _ s' => search_from p (S pos) s'
      | EmptyString => None
      end
  end.

Definition search (p : list node) (text : string) : option match_object :=
  search_from p 0 text.

(** [m[name]] *)
Fixpoint lookup (name : string) (groups : list (string * string)) : option string :=
  match groups with
  | [] => None
  | (n, text) :: groups' => if String.eqb n name then Some text else lookup name groups'
  end.

Definition group (m : match_object) (name : string) : M string :=
  match lookup name (groupdict m) with
  | Some text => ret text
  | None => raise (IndexError "no such group")
  end.

End Re.

(* ===================================================================== *)
(** ** [bisect.bisect] with a key *)
(* ===================================================================== *)

Module Bisect.

Section WithKey.
Context {A K : Type}.
Variable ltb : K -> K -> bool.   (* the key type's [<] *)
Variable key : A -> K.

(** The loop of [bisect_right]. *)
Equations? bisect_loop (a : list A) (x : K) (lo hi : Z) : M Z
    by wf (Z.to_nat (hi - lo)) lt :=
  bisect_loop a x lo hi with Z_lt_dec lo hi => {
    | left _ =>
        let mid := (lo + hi) / 2 in
        bind (getitem a mid)
          (fun am => if ltb x (key am)
                     then bisect_loop a x lo mid
                     else bisect_loop a x (mid + 1) hi)
    | right _ => ret lo }.
Proof.
  - assert (lo <= (lo + hi) / 2 < hi)
      by (split; [apply Z.div_le_lower_bound | apply Z.div_lt_upper_bound]; lia).
    lia.
  - assert (lo <= (lo + hi) / 2 < hi)
      by (split; [apply Z.div_le_lower_bound | apply Z.div_lt_upper_bound]; lia).
    lia.
Qed.

(** [bisect.bisect(a, x, key=key)], with [lo=0] and [hi=None]. *)
Definition bisect (a : list A) (x : K) : M Z :=
  let lo := 0 in
  if lo <? 0 then raise (ValueError "lo must be non-negative" [])
  else let hi := len a in bisect_loop a x lo hi.

End WithKey.

End Bisect.

(* ===================================================================== *)
(** ** compatibility.py *)
(* ===================================================================== *)

(** [_RE_SEMVER = re.compile(r'^(?P<major>\d+)\.(?P<minor>\d+).(?P<patch>\d+)\S*')]

    The first separator is the escaped [\.]; the second is a bare [.],
    which stands for any character but a newline. *)
Definition _RE_SEMVER : list Re.node :=
  [ Re.Bol;
    Re.Rep (Some "major") 1 Re.Digit;
    Re.One (Re.Lit "."%char);
    Re.Rep (Some "minor") 1 Re.Digit;
    Re.One Re.AnyChar;
    Re.Rep (Some "patch") 1 Re.Digit;
    Re.Rep None 0 Re.NonSpace ].

(** [@dataclass(frozen=True, slots=True, kw_only=True, order=True) class SemVer] *)
Record SemVer : Type := mkSemVer {
  major : Z;
  minor : Z;
  patch : Z
}.

(** [order=True]: comparisons are those of the tuples
    [(major, minor, patch)], which look at the first field that differs. *)
Definition SemVer_lt (a b : SemVer) : bool :=
  if negb (major a =? major b) then major a <? major b
  else if negb (minor a =? minor b) then minor a <? minor b
  else patch a <? patch b.

Definition SemVer_gt (a b : SemVer) : bool :=
  if negb (major a =? major b) then major a >? major b
  else if negb (minor a =? minor b) then minor a >? minor b
  else patch a >? patch b.

(** The text of a version: what [str(v)] returns when it returns. *)
Definition SemVer_str (v : SemVer) : string :=
  "SemVer(major=" ++ str_int (major v) ++ ", minor=" ++ str_int (minor v)
  ++ ", patch=" ++ str_int (patch v) ++ ")".

(** [str(v)], the dataclass's generated [__repr__]: the three fields are
    converted in turn, and the first that cannot be stops it. *)
Definition SemVer_repr (v : SemVer) : M string :=
  a <- str (major v) ;;
  b <- str (minor v) ;;
  c <- str (patch v) ;;
  ret ("SemVer(major=" ++ a ++ ", minor=" ++ b ++ ", patch=" ++ c ++ ")").

(** [SemVer.from_str] *)
Definition from_str (value : string) : M SemVer :=
  match Re.search _RE_SEMVER value with
  | None => raise (ValueError ("can't parse given semver: " ++ value) [])
  | Some m =>
      major <- (text <- Re.group m "major" ;; int text) ;;
      minor <- (text <- Re.group m "minor" ;; int text) ;;
      patch <- (text <- Re.group m "patch" ;; int text) ;;
      ret (mkSemVer major minor patch)
  end.

(** [SemVer.is_compatible_with] *)
Definition is_compatible_with (self other : SemVer) : bool :=
  (major self =? major other) && (minor self =? minor other).

(** [_get_installed_fzf_version].  The subprocess is the caller's
    collaborator: [fzf_stdout] is the [stdout] attribute of the completed
    process, the text that [subprocess.run] hands over in text mode,
    that is after decoding and after the translation of line ends to
    ["\n"]. *)
Definition _get_installed_fzf_version (fzf_stdout : string) : M SemVer :=
  let result := strip fzf_stdout in
  try_except_ValueError (from_str result)
    (fun error =>
       raise (add_note error "this semver was generated by running 'fzf --version'. ")).

(** The message templates, each with its fields filled in: the texts
    that [format] returns when it returns. *)
Definition _ERROR_HEADER (my_version your_version : SemVer) : string :=
  "The contents of this module were written module taking into consideration the man "
  ++ "pages of fzf version=" ++ SemVer_str my_version
  ++ ". You're using fzf version=" ++ SemVer_str your_version ++ " ".

Definition _ERROR_OLDER : string :=
  "which is older than the version I used, meaning that some of the features exposed "
  ++ "on this API wrapper may not work (they're not implemented yet in your 'fzf'). ".

Definition _ERROR_NEWER : string :=
  "which is newer than the version I used, meaning that some features from fzf that "
  ++ "you may want to use may be absent here. ".

Definition _ERROR_PREVIOUSLY_SUPPORTED (previously_supported : SemVer) : string :=
  "In your particular case, the version you're using has been supported by a previous "
  ++ "version of this library (" ++ SemVer_str previously_supported
  ++ "), so, if you want, you can downgrade this package to get "
  ++ "full compatibility, instead of updating 'fzf'; it's really up to you... ".

Definition _ERROR_EPILOGUE : string :=
  "Regardless of all this, your use case might probably be supported by this lib. I've "
  ++ "included the aformentioned manpages in this package's repo, so, if you want to be 100% "
  ++ " sure, you can download these manpages and run them through 'diff' with your system's "
  ++ "manpages for fzf. See README.md for an example of how to do this.".

(** The second part of the message:
    [_ERROR_NEWER if your_version > my_version else _ERROR_OLDER]. *)
Definition age_clause (my_version your_version : SemVer) : string :=
  if SemVer_gt your_version my_version then _ERROR_NEWER else _ERROR_OLDER.

(** The third part: the downgrade hint, or nothing. *)
Definition fallback_clause (previously_supported : option SemVer) : string :=
  match previously_supported with
  | Some v => _ERROR_PREVIOUSLY_SUPPORTED v
  | None => ""
  end.

(** The message of the diagnostic for versions that can be written. *)
Definition diagnostic (my_version your_version : SemVer)
    (previously_supported : option SemVer) : string :=
  String.concat ""
    [ _ERROR_HEADER my_version your_version;
      age_clause my_version your_version;
      fallback_clause previously_supported;
      _ERROR_EPILOGUE ].

(** [_ERROR_HEADER.format(my_version=..., your_version=...)]: [str] is
    called on the two versions in the order of the fields and may raise. *)
Definition format_header (my_version your_version : SemVer) : M string :=
  my <- SemVer_repr my_version ;;
  your <- SemVer_repr your_version ;;
  ret ("The contents of this module were written module taking into consideration the man "
       ++ "pages of fzf version=" ++ my
       ++ ". You're using fzf version=" ++ your ++ " ").

(** [_ERROR_PREVIOUSLY_SUPPORTED.format(previously_supported)
    if previously_supported is not None else ""] *)
Definition format_fallback (previously_supported : option SemVer) : M string :=
  match previously_supported with
  | Some v =>
      text <- SemVer_repr v ;;
      ret ("In your particular case, the version you're using has been supported by a previous "
           ++ "version of this library (" ++ text
           ++ "), so, if you want, you can downgrade this package to get "
           ++ "full compatibility, instead of updating 'fzf'; it's really up to you... ")
  | None => ret ""
  end.

(** [_raise_error]: the parts of the list are evaluated in order, then
    joined and raised. *)
Definition _raise_error {A} (my_version your_version : SemVer)
    (previously_supported : option SemVer) : M A :=
  header <- format_header my_version your_version ;;
  let age := if SemVer_gt your_version my_version then _ERROR_NEWER else _ERROR_OLDER in
  fallback <- format_fallback previously_supported ;;
  raise (RuntimeError (String.concat "" [header; age; fallback; _ERROR_EPILOGUE])).

(** What the compatible branch does: the message, then [raise SystemExit()]. *)
Definition exit_compatible {A} : M A :=
  print_stderr "versions are compatible... you're fine!" ;;; raise SystemExit.

(** [_test_compatibility] *)
Definition _test_compatibility (latest_supported found_version : SemVer)
    (all_supported_versions : list (SemVer * SemVer)) : M unit :=
  index <- Bisect.bisect SemVer_lt (fun pair => fst pair)
             all_supported_versions found_version ;;
  when (index =? 0) (_raise_error latest_supported found_version None) ;;;
  when (is_compatible_with found_version latest_supported) exit_compatible ;;;
  when (index =? len all_supported_versions)
    (_raise_error latest_supported found_version None) ;;;
  prev <- getitem all_supported_versions (index - 1) ;;
  let '(prev_fzf_version, prev_lib_version) := prev in
  when (is_compatible_with found_version prev_fzf_version)
    (_raise_error latest_supported found_version (Some prev_lib_version)) ;;;
  prev <- getitem all_supported_versions index ;;
  let '(prev_fzf_version, prev_lib_version) := prev in
  when (is_compatible_with found_version prev_fzf_version)
    (_raise_error latest_supported found_version (Some prev_lib_version)) ;;;
  _raise_error latest_supported found_version None.

(** The table built in [test_compatibility]: keys are fzf versions,
    values are this package's versions. *)
Definition all_supported_versions : list (SemVer * SemVer) :=
  [ (mkSemVer 0 42 0, mkSemVer 0 1 0);
    (mkSemVer 0 43 0, mkSemVer 0 2 0) ].


(* ===================================================================== *)
(** ** Predicates of the statements *)
(* ===================================================================== *)

(** The table invariant: the fzf-version column strictly increases. *)
Fixpoint strictly_increasing (t : list (SemVer * SemVer)) : bool :=
  match t with
  | p :: (q :: _) as t' => SemVer_lt (fst p) (fst q) && strictly_increasing t'
  | _ => true
  end.

(** Every character of [s] belongs to the class [cs]. *)
Fixpoint all_in (cs : Re.charset) (s : string) : bool :=
  match s with
  | String c s' => Re.mem cs c && all_in cs s'
  | EmptyString => true
  end.

(** [s] does not continue a run of [cs]: it is empty, or begins with a
    character outside of [cs]. *)
Definition starts_outside (cs : Re.charset) (s : string) : bool :=
  match s with
  | String c _ => negb (Re.mem cs c)
  | EmptyString => true
  end.

(** A suffix that is not numeric: it does not continue the patch digits. *)
Definition non_numeric (suffix : string) : bool := starts_outside Re.Digit suffix.

(** A run of one or more digits. *)
Definition digit_run (d : string) : Prop :=
  all_in Re.Digit d = true /\ (1 <= String.length d)%nat.

(** The texts [_RE_SEMVER] accepts: digits, a dot, digits, one character
    that is not a newline, digits, anything. *)
Definition accepted (value : string) : Prop :=
  exists (d1 d2 d3 rest : string) (sep : ascii),
    value = d1 ++ "." ++ d2 ++ String sep (d3 ++ rest)
    /\ digit_run d1 /\ digit_run d2 /\ digit_run d3
    /\ sep <> "010"%char.

(** A version whose three fields [str] can write. *)
Definition printable (v : SemVer) : bool :=
  ((ndigits (major v) <=? int_max_str_digits)
   && (ndigits (minor v) <=? int_max_str_digits)
   && (ndigits (patch v) <=? int_max_str_digits))%nat.

Definition printable_opt (p : option SemVer) : bool :=
  match p with
  | Some v => printable v
  | None => true
  end.

(** A table whose library versions can all be written. *)
Definition printable_hints (t : list (SemVer * SemVer)) : bool :=
  forallb (fun pair => printable (snd pair)) t.

(** A text made of whitespace only. *)
Fixpoint all_space (s : string) : bool :=
  match s with
  | String c s' => isspace c && all_space s'
  | EmptyString => true
  end.

(** Where a binary search stands, and what it needs of the list. *)
Section SearchSpec.
Context {A K : Type}.
Variable ltb : K -> K -> bool.
Variable key : A -> K.

(** The window [lo, hi) splits [a] for [x]: the entries left of [lo] are
    not above [x], the entries from [hi] on are above it.  With
    [lo = hi = i], [i] is the rightmost insertion point of [x]. *)
Definition splits (a : list A) (x : K) (lo hi : Z) : Prop :=
  forall (j : nat) (e : A), nth_error a j = Some e ->
    (Z.of_nat j < lo -> ltb x (key e) = false) /\
    (hi <= Z.of_nat j -> ltb x (key e) = true).

(** Above [x] at one index means above [x] at every later index. *)
Definition partitioned (a : list A) (x : K) : Prop :=
  forall (j1 j2 : nat) (e1 e2 : A),
    nth_error a j1 = Some e1 -> nth_error a j2 = Some e2 -> (j1 <= j2)%nat ->
    ltb x (key e1) = true -> ltb x (key e2) = true.

End SearchSpec.

(* ===================================================================== *)
(** ** Properties of the runtime *)
(* ===================================================================== *)

Section MonadLaws.
Context {A B : Type}.

Lemma bind_ret (a : A) (k : A -> M B) : bind (ret a) k = k a.
Proof. unfold bind, ret. destruct (k a) as [out r]. reflexivity. Qed.

Lemma bind_raise (e : exn) (k : A -> M B) : bind (raise e) k = raise e.
Proof. reflexivity. Qed.

End MonadLaws.

Lemma when_false (body : M unit) : when false body = ret tt.
Proof. reflexivity. Qed.

Lemma when_true (body : M unit) : when true body = body.
Proof. reflexivity. Qed.

Lemma getitem_in_range {A} (l : list A) (i : Z) :
  0 <= i < len l ->
  exists a, getitem l i = ret a /\ nth_error l (Z.to_nat i) = Some a.
Proof.
  unfold len, getitem. intros Hi.
  destruct (i <? 0) eqn:Hneg; [apply Z.ltb_lt in Hneg; lia |].
  rewrite Hneg.
  destruct (Z.of_nat (List.length l) <=? i) eqn:Hle; [apply Z.leb_le in Hle; lia |].
  cbn [orb].
  destruct (nth_error l (Z.to_nat i)) as [a |] eqn:Hnth.
  - exists a. split; reflexivity.
  - apply nth_error_None in Hnth. lia.
Qed.

Lemma getitem_nth {A} (l : list A) (j : nat) (a : A) :
  nth_error l j = Some a -> getitem l (Z.of_nat j) = ret a.
Proof.
  intros Hnth.
  assert (Hlt : (j < List.length l)%nat) by (apply nth_error_Some; congruence).
  destruct (getitem_in_range l (Z.of_nat j)) as (a' & Hget & Hnth').
  - unfold len. lia.
  - rewrite Nat2Z.id in Hnth'. congruence.
Qed.

(** The last element, as [l[-1]] finds it. *)
Lemma getitem_last {A} (l : list A) (a : A) :
  getitem l (-1) = ret a ->
  l <> [] /\ nth_error l (List.length l - 1) = Some a.
Proof.
  unfold getitem. cbn [Z.ltb Z.compare].
  destruct l as [| x l'].
  - cbn. discriminate.
  - intros H. split; [discriminate |].
    replace (-1 + Z.of_nat (List.length (x :: l'))) with (Z.of_nat (List.length l')) in H
      by (cbn [List.length]; lia).
    destruct (Z.of_nat (List.length l') <? 0) eqn:E1; [apply Z.ltb_lt in E1; lia |].
    destruct (Z.of_nat (List.length (x :: l')) <=? Z.of_nat (List.length l')) eqn:E2;
      [apply Z.leb_le in E2; cbn [List.length] in E2; lia |].
    cbn [orb] in H. rewrite Nat2Z.id in H.
    replace (List.length (x :: l') - 1)%nat with (List.length l') by (cbn; lia).
    destruct (nth_error (x :: l') (List.length l')); [| discriminate].
    unfold ret in H. congruence.
Qed.

(* ===================================================================== *)
(** ** Texts *)
(* ===================================================================== *)

Lemma append_assoc (s1 s2 s3 : string) : (s1 ++ s2) ++ s3 = s1 ++ (s2 ++ s3).
Proof. induction s1 as [| c s1 IH]; cbn; [reflexivity | rewrite IH; reflexivity]. Qed.

Lemma append_empty_r (s : string) : s ++ "" = s.
Proof. induction s as [| c s IH]; cbn; [reflexivity | rewrite IH; reflexivity]. Qed.

Lemma append_length (s1 s2 : string) :
  String.length (s1 ++ s2) = (String.length s1 + String.length s2)%nat.
Proof. induction s1 as [| c s1 IH]; cbn; [reflexivity | rewrite IH; reflexivity]. Qed.

Lemma append_inv_head (s x y : string) : s ++ x = s ++ y -> x = y.
Proof.
  induction s as [| c s IH]; cbn; intros H; [exact H |].
  injection H as H. apply IH, H.
Qed.

Lemma append_inv_same_length (x y s t : string) :
  String.length x = String.length y -> x ++ s = y ++ t -> x = y /\ s = t.
Proof.
  revert y. induction x as [| c x IH]; intros [| c' y] Hlen H; try discriminate.
  - split; [reflexivity | exact H].
  - cbn in Hlen, H. injection Hlen as Hlen. injection H as -> H.
    destruct (IH y Hlen H) as [-> ->]. split; reflexivity.
Qed.

Lemma append_inv_tail (x y s : string) : x ++ s = y ++ s -> x = y.
Proof.
  intros H. apply (append_inv_same_length x y s s); [| exact H].
  apply (f_equal String.length) in H. rewrite !append_length in H. lia.
Qed.

(** Two texts cut at the first occurrence of [c] have the same parts. *)
Lemma append_inv_separator (c : ascii) (x y r r' : string) :
  ~ In c (list_ascii_of_string x) -> ~ In c (list_ascii_of_string y) ->
  x ++ String c r = y ++ String c r' -> x = y /\ r = r'.
Proof.
  revert y. induction x as [| a x IH]; intros [| b y] Hx Hy H; cbn in *.
  - injection H as ->. split; reflexivity.
  - injection H as <- _. tauto.
  - injection H as -> _. tauto.
  - injection H as -> H.
    assert (Hxy : x = y /\ r = r') by (apply IH; [tauto | tauto | exact H]).
    destruct Hxy as [-> ->]. split; reflexivity.
Qed.

(* ===================================================================== *)
(** ** Properties of [bisect] *)
(* ===================================================================== *)

Section BisectFacts.
Context {A K : Type}.
Variable ltb : K -> K -> bool.
Variable key : A -> K.

Lemma mid_bounds (lo hi : Z) : lo < hi -> lo <= (lo + hi) / 2 < hi.
Proof.
  intros H. split; [apply Z.div_le_lower_bound | apply Z.div_lt_upper_bound]; lia.
Qed.

(** The loop ends, inside the window it was given, without an index
    error. *)
Lemma bisect_loop_returns (a : list A) (x : K) (lo hi : Z) :
  0 <= lo -> lo <= hi -> hi <= len a ->
  exists i, Bisect.bisect_loop ltb key a x lo hi = ret i /\ lo <= i <= hi.
Proof.
  funelim (Bisect.bisect_loop ltb key a x lo hi); intros Hlo Hle Hhi.
  - destruct (mid_bounds lo hi l) as [Hm1 Hm2].
    destruct (getitem_in_range a ((lo + hi) / 2)) as (am & Hget & _); [lia |].
    cbn zeta. rewrite Hget, bind_ret.
    destruct (ltb x (key am)).
    + destruct (H am) as (i & Hi & Hr); try lia. exists i. split; [exact Hi | lia].
    + destruct (H0 am) as (i & Hi & Hr); try lia. exists i. split; [exact Hi | lia].
  - exists lo. split; [reflexivity | lia].
Qed.

(** On a partitioned list the loop narrows the window down to the
    rightmost insertion point. *)
Lemma bisect_loop_splits (a : list A) (x : K) (lo hi : Z) :
  partitioned ltb key a x ->
  0 <= lo -> lo <= hi -> hi <= len a ->
  splits ltb key a x lo hi ->
  exists i, Bisect.bisect_loop ltb key a x lo hi = ret i /\ lo <= i <= hi
            /\ splits ltb key a x i i.
Proof.
  funelim (Bisect.bisect_loop ltb key a x lo hi); intros Hpart Hlo Hle Hhi Hsp.
  - destruct (mid_bounds lo hi l) as [Hm1 Hm2].
    destruct (getitem_in_range a ((lo + hi) / 2)) as (am & Hget & Hnth); [lia |].
    cbn zeta. rewrite Hget, bind_ret.
    destruct (ltb x (key am)) eqn:Hcmp.
    + assert (Hwin : splits ltb key a x lo ((lo + hi) / 2)).
      { intros j e Hj. split.
        - intros Hlt. apply (Hsp j e Hj). exact Hlt.
        - intros Hge. apply (Hpart (Z.to_nat ((lo + hi) / 2)) j am e); auto. lia. }
      destruct (H am Hpart) as (i & Hi & Hr & Hs); try lia; [exact Hwin |].
      exists i. split; [exact Hi |]. split; [lia | exact Hs].
    + assert (Hwin : splits ltb key a x ((lo + hi) / 2 + 1) hi).
      { intros j e Hj. split.
        - intros Hlt. destruct (ltb x (key e)) eqn:Hje; [| reflexivity].
          rewrite <- Hcmp. symmetry.
          apply (Hpart j (Z.to_nat ((lo + hi) / 2)) e am); auto. lia.
        - intros Hge. apply (Hsp j e Hj). exact Hge. }
      destruct (H0 am Hpart) as (i & Hi & Hr & Hs); try lia; [exact Hwin |].
      exists i. split; [exact Hi |]. split; [lia | exact Hs].
  - assert (lo = hi) by lia. subst hi.
    exists lo. split; [reflexivity |]. split; [lia | exact Hsp].
Qed.

(** [bisect] always answers, with a position of the list. *)
Lemma bisect_returns (a : list A) (x : K) :
  exists i, Bisect.bisect ltb key a x = ret i /\ 0 <= i <= len a.
Proof.
  unfold Bisect.bisect. cbn [Z.ltb Z.compare].
  apply bisect_loop_returns; unfold len; lia.
Qed.

(** On a partitioned list it answers with the rightmost insertion point. *)
Lemma bisect_upper_bound (a : list A) (x : K) :
  partitioned ltb key a x ->
  exists i, Bisect.bisect ltb key a x = ret i /\ 0 <= i <= len a
            /\ splits ltb key a x i i.
Proof.
  intros Hpart. unfold Bisect.bisect. cbn [Z.ltb Z.compare].
  apply bisect_loop_splits; auto; unfold len; try lia.
  intros j e Hj. split; [lia |].
  intros Hge. assert ((j < List.length a)%nat) by (apply nth_error_Some; congruence).
  unfold len in Hge. lia.
Qed.

End BisectFacts.

(* ===================================================================== *)
(** ** The order and the compatibility relation on versions *)
(* ===================================================================== *)

Lemma SemVer_lt_spec (a b : SemVer) :
  SemVer_lt a b = true <->
  major a < major b \/
  (major a = major b /\ (minor a < minor b \/ (minor a = minor b /\ patch a < patch b))).
Proof.
  unfold SemVer_lt.
  destruct (Z.eqb_spec (major a) (major b)); cbn [negb];
    [destruct (Z.eqb_spec (minor a) (minor b)); cbn [negb] |];
    rewrite Z.ltb_lt; lia.
Qed.

Lemma SemVer_gt_lt (a b : SemVer) : SemVer_gt a b = SemVer_lt b a.
Proof.
  unfold SemVer_gt, SemVer_lt.
  rewrite (Z.eqb_sym (major a)), (Z.eqb_sym (minor a)), !Z.gtb_ltb. reflexivity.
Qed.

Lemma SemVer_eq_fields (a b : SemVer) :
  major a = major b -> minor a = minor b -> patch a = patch b -> a = b.
Proof. destruct a, b. cbn. intros -> -> ->. reflexivity. Qed.

Lemma SemVer_lt_irrefl (a : SemVer) : SemVer_lt a a = false.
Proof.
  destruct (SemVer_lt a a) eqn:E; [| reflexivity].
  apply SemVer_lt_spec in E. lia.
Qed.

Lemma SemVer_lt_trans (a b c : SemVer) :
  SemVer_lt a b = true -> SemVer_lt b c = true -> SemVer_lt a c = true.
Proof. rewrite !SemVer_lt_spec. lia. Qed.

(** Exactly one of [a < b], [a = b], [a > b]. *)
Lemma SemVer_trichotomy (a b : SemVer) :
  (SemVer_lt a b = true /\ a <> b /\ SemVer_gt a b = false) \/
  (SemVer_lt a b = false /\ a = b /\ SemVer_gt a b = false) \/
  (SemVer_lt a b = false /\ a <> b /\ SemVer_gt a b = true).
Proof.
  rewrite SemVer_gt_lt.
  destruct (SemVer_lt a b) eqn:Eab; destruct (SemVer_lt b a) eqn:Eba.
  - apply SemVer_lt_spec in Eab, Eba. lia.
  - left. repeat split. intros ->. rewrite SemVer_lt_irrefl in Eab. discriminate.
  - right; right. repeat split. intros ->. rewrite SemVer_lt_irrefl in Eba. discriminate.
  - right; left. repeat split.
    assert (Hab : ~ SemVer_lt a b = true) by congruence.
    assert (Hba : ~ SemVer_lt b a = true) by congruence.
    rewrite SemVer_lt_spec in Hab, Hba.
    apply SemVer_eq_fields; lia.
Qed.

Lemma is_compatible_with_spec (a b : SemVer) :
  is_compatible_with a b = true <-> major a = major b /\ minor a = minor b.
Proof. unfold is_compatible_with. rewrite andb_true_iff, !Z.eqb_eq. tauto. Qed.

Lemma is_compatible_with_refl (a : SemVer) : is_compatible_with a a = true.
Proof. apply is_compatible_with_spec. split; reflexivity. Qed.

(* ===================================================================== *)
(** ** Strictly increasing tables *)
(* ===================================================================== *)

Lemma strictly_increasing_tail (p : SemVer * SemVer) (t : list (SemVer * SemVer)) :
  strictly_increasing (p :: t) = true -> strictly_increasing t = true.
Proof.
  destruct t as [| q t']; [reflexivity |].
  cbn [strictly_increasing]. intros H. apply andb_true_iff in H. apply H.
Qed.

(** The head of a strictly increasing table is below every later entry. *)
Lemma strictly_increasing_head (p : SemVer * SemVer) (t : list (SemVer * SemVer)) :
  strictly_increasing (p :: t) = true ->
  forall (j : nat) (e : SemVer * SemVer),
    nth_error t j = Some e -> SemVer_lt (fst p) (fst e) = true.
Proof.
  revert p. induction t as [| q t' IH]; intros p Hs j e Hj.
  - destruct j; discriminate.
  - cbn [strictly_increasing] in Hs. apply andb_true_iff in Hs as [Hpq Hrest].
    destruct j as [| j'].
    + cbn in Hj. injection Hj as <-. exact Hpq.
    + cbn in Hj. apply SemVer_lt_trans with (b := fst q); [exact Hpq |].
      apply (IH q Hrest j' e Hj).
Qed.

(** Entries at increasing positions carry increasing fzf versions. *)
Lemma strictly_increasing_nth (t : list (SemVer * SemVer)) :
  strictly_increasing t = true ->
  forall (j1 j2 : nat) (e1 e2 : SemVer * SemVer),
    nth_error t j1 = Some e1 -> nth_error t j2 = Some e2 -> (j1 < j2)%nat ->
    SemVer_lt (fst e1) (fst e2) = true.
Proof.
  induction t as [| p t' IH]; intros Hs j1 j2 e1 e2 H1 H2 Hlt.
  - destruct j1; discriminate.
  - destruct j2 as [| j2']; [lia |].
    destruct j1 as [| j1'].
    + cbn in H1, H2. injection H1 as <-.
      apply (strictly_increasing_head p t' Hs j2' e2 H2).
    + cbn in H1, H2.
      apply (IH (strictly_increasing_tail p t' Hs) j1' j2' e1 e2 H1 H2). lia.
Qed.

Lemma strictly_increasing_partitioned (t : list (SemVer * SemVer)) (x : SemVer) :
  strictly_increasing t = true -> partitioned SemVer_lt fst t x.
Proof.
  intros Hs j1 j2 e1 e2 H1 H2 Hle Hx.
  destruct (Nat.eq_dec j1 j2) as [-> | Hne].
  - congruence.
  - apply SemVer_lt_trans with (b := fst e1); [exact Hx |].
    apply (strictly_increasing_nth t Hs j1 j2 e1 e2 H1 H2). lia.
Qed.

(** In a strictly increasing table the search puts a version right
    after the entry that equals it. *)
Lemma bisect_equal_entry (t : list (SemVer * SemVer)) (j : nat) (entry : SemVer * SemVer) :
  strictly_increasing t = true ->
  nth_error t j = Some entry ->
  Bisect.bisect SemVer_lt fst t (fst entry) = ret (Z.of_nat j + 1).
Proof.
  intros Hs Hj.
  destruct (bisect_upper_bound SemVer_lt fst t (fst entry)
              (strictly_increasing_partitioned t (fst entry) Hs))
    as (i & Hi & Hr & Hsp).
  rewrite Hi. f_equal. f_equal.
  destruct (Z_lt_le_dec (Z.of_nat j) i) as [Hlt | Hge].
  - destruct (Z.eq_dec i (Z.of_nat j + 1)) as [| Hne]; [assumption |].
    (* the entry at j+1 would be both above and not above [fst entry] *)
    destruct (getitem_in_range t (Z.of_nat j + 1)) as (e' & _ & Hnth'); [lia |].
    replace (Z.to_nat (Z.of_nat j + 1)) with (S j) in Hnth' by lia.
    assert (Habove : SemVer_lt (fst entry) (fst e') = true)
      by (apply (strictly_increasing_nth t Hs j (S j) entry e' Hj Hnth'); lia).
    destruct (Hsp (S j) e' Hnth') as [Hleft _].
    rewrite Hleft in Habove; [discriminate | lia].
  - destruct (Hsp j entry Hj) as [_ Hright].
    rewrite SemVer_lt_irrefl in Hright. specialize (Hright Hge). discriminate.
Qed.


(** A version equal to the last fzf version of a strictly increasing
    table is never put at position 0. *)
Lemma bisect_of_last_nonzero (t : list (SemVer * SemVer)) (last : SemVer * SemVer) (i : Z) :
  strictly_increasing t = true ->
  getitem t (-1) = ret last ->
  Bisect.bisect SemVer_lt fst t (fst last) = ret i ->
  i <> 0.
Proof.
  intros Hs Hlast Hi.
  destruct (getitem_last t last Hlast) as [Hne Hnth].
  rewrite (bisect_equal_entry t _ last Hs Hnth) in Hi.
  unfold ret in Hi. injection Hi as <-. lia.
Qed.

(* ===================================================================== *)
(** ** The decision procedure, branch by branch *)
(* ===================================================================== *)

(** Open the classifier's body; its key function [lambda pair: pair[0]]
    is [fst]. *)
Ltac open_classifier :=
  unfold _test_compatibility;
  change (fun pair : SemVer * SemVer => fst pair) with (@fst SemVer SemVer).

(** [str] of an int, by the number of its digits. *)
Lemma str_unfold (n : Z) :
  str n = if (ndigits n <=? int_max_str_digits)%nat then ret (str_int n)
          else raise (ValueError exceeds_to_str []).
Proof. reflexivity. Qed.

(** [str] of a version: its text when the three fields can be written,
    the [ValueError] of the conversion otherwise. *)
Lemma SemVer_repr_unfold (v : SemVer) :
  SemVer_repr v = if printable v then ret (SemVer_str v)
                  else raise (ValueError exceeds_to_str []).
Proof.
  unfold SemVer_repr, printable. rewrite !str_unfold.
  destruct (ndigits (major v) <=? int_max_str_digits)%nat; [| reflexivity].
  destruct (ndigits (minor v) <=? int_max_str_digits)%nat; [| reflexivity].
  destruct (ndigits (patch v) <=? int_max_str_digits)%nat; reflexivity.
Qed.

(** [_raise_error] raises the diagnostic when the versions it has to
    write can be written, and the [ValueError] of the conversion
    otherwise. *)
Lemma raise_error_unfold {A} (my your : SemVer) (p : option SemVer) :
  _raise_error (A := A) my your p
  = if printable my && printable your && printable_opt p
    then raise (RuntimeError (diagnostic my your p))
    else raise (ValueError exceeds_to_str []).
Proof.
  unfold _raise_error, format_header, format_fallback.
  rewrite !SemVer_repr_unfold.
  destruct (printable my); [| reflexivity].
  destruct (printable your); [| reflexivity].
  destruct p as [v |]; [| reflexivity].
  rewrite SemVer_repr_unfold. cbn [printable_opt andb].
  destruct (printable v); reflexivity.
Qed.

Lemma raise_error_bind {B} (my your : SemVer) (p : option SemVer) (k : unit -> M B) :
  bind (_raise_error my your p) k = _raise_error my your p.
Proof.
  rewrite !raise_error_unfold.
  destruct (printable my && printable your && printable_opt p); reflexivity.
Qed.

Lemma exit_compatible_bind {B} (k : unit -> M B) :
  bind exit_compatible k = exit_compatible.
Proof. reflexivity. Qed.

(** The insertion point is a position of the table. *)
Lemma insertion_point_range (t : list (SemVer * SemVer)) (found : SemVer) (i : Z) :
  Bisect.bisect SemVer_lt fst t found = ret i -> 0 <= i <= len t.
Proof.
  intros Hi. destruct (bisect_returns SemVer_lt fst t found) as (i' & Hi' & Hr).
  rewrite Hi in Hi'. unfold ret in Hi'. injection Hi' as ->. exact Hr.
Qed.

(** [index == 0]: rejected at once. *)
Lemma classify_at_zero (latest found : SemVer) (t : list (SemVer * SemVer)) :
  Bisect.bisect SemVer_lt fst t found = ret 0 ->
  _test_compatibility latest found t = _raise_error latest found None.
Proof.
  intros Hi. open_classifier. rewrite Hi, bind_ret.
  rewrite Z.eqb_refl, when_true. apply raise_error_bind.
Qed.

(** [index != 0] and release-compatible with the latest version. *)
Lemma classify_compatible (latest found : SemVer) (t : list (SemVer * SemVer)) (i : Z) :
  Bisect.bisect SemVer_lt fst t found = ret i ->
  i <> 0 ->
  is_compatible_with found latest = true ->
  _test_compatibility latest found t = exit_compatible.
Proof.
  intros Hi Hnz Hc. open_classifier. rewrite Hi, bind_ret.
  apply Z.eqb_neq in Hnz. rewrite Hnz, Hc.
  rewrite when_false, bind_ret, when_true. apply exit_compatible_bind.
Qed.

(** [index == len(table)], not release-compatible with the latest. *)
Lemma classify_at_end (latest found : SemVer) (t : list (SemVer * SemVer)) :
  Bisect.bisect SemVer_lt fst t found = ret (len t) ->
  is_compatible_with found latest = false ->
  _test_compatibility latest found t = _raise_error latest found None.
Proof.
  intros Hi Hc. open_classifier. rewrite Hi, bind_ret.
  destruct (len t =? 0); [rewrite when_true; apply raise_error_bind |].
  rewrite when_false, bind_ret, Hc, when_false, bind_ret, Z.eqb_refl, when_true.
  apply raise_error_bind.
Qed.

(** Strictly inside the table: [table[index-1]] is asked first, then
    [table[index]]. *)
Lemma classify_inside (latest found : SemVer) (t : list (SemVer * SemVer)) (i : Z)
    (prev next : SemVer * SemVer) :
  Bisect.bisect SemVer_lt fst t found = ret i ->
  i <> 0 -> i <> len t ->
  is_compatible_with found latest = false ->
  nth_error t (Z.to_nat (i - 1)) = Some prev ->
  nth_error t (Z.to_nat i) = Some next ->
  _test_compatibility latest found t =
    if is_compatible_with found (fst prev)
    then _raise_error latest found (Some (snd prev))
    else if is_compatible_with found (fst next)
         then _raise_error latest found (Some (snd next))
         else _raise_error latest found None.
Proof.
  intros Hi Hnz Hne Hc Hprev Hnext.
  pose proof (insertion_point_range t found i Hi) as Hr.
  open_classifier. rewrite Hi, bind_ret.
  apply Z.eqb_neq in Hnz, Hne. rewrite Hnz, Hc, Hne.
  rewrite !when_false, !bind_ret.
  apply Z.eqb_neq in Hnz, Hne.
  rewrite <- (Z2Nat.id (i - 1)) by lia.
  rewrite (getitem_nth t _ prev Hprev), bind_ret.
  destruct prev as [prev_fzf prev_lib]. cbn [fst snd].
  destruct (is_compatible_with found prev_fzf);
    [rewrite when_true; apply raise_error_bind |].
  rewrite when_false, bind_ret.
  rewrite <- (Z2Nat.id i) at 1 by lia.
  rewrite (getitem_nth t _ next Hnext), bind_ret.
  destruct next as [next_fzf next_lib]. cbn [fst snd].
  destruct (is_compatible_with found next_fzf);
    [rewrite when_true; apply raise_error_bind | rewrite when_false, bind_ret; reflexivity].
Qed.

(** Strictly inside the table both neighbours of the insertion point
    exist. *)
Lemma neighbours_exist (t : list (SemVer * SemVer)) (i : Z) :
  0 <= i <= len t -> i <> 0 -> i <> len t ->
  exists prev next,
    nth_error t (Z.to_nat (i - 1)) = Some prev /\ nth_error t (Z.to_nat i) = Some next.
Proof.
  intros Hr Hnz Hne.
  destruct (getitem_in_range t (i - 1)) as (prev & _ & Hprev); [lia |].
  destruct (getitem_in_range t i) as (next & _ & Hnext); [lia |].
  exists prev, next. split; assumption.
Qed.

(** Every run of the classifier ends in one of its two exceptions. *)
Lemma classify_outcomes (latest found : SemVer) (t : list (SemVer * SemVer)) :
  _test_compatibility latest found t = exit_compatible \/
  exists p, _test_compatibility latest found t = _raise_error latest found p.
Proof.
  destruct (bisect_returns SemVer_lt fst t found) as (i & Hi & Hr).
  destruct (Z.eq_dec i 0) as [-> | Hnz].
  - right. exists None. apply classify_at_zero. exact Hi.
  - destruct (is_compatible_with found latest) eqn:Hc.
    + left. apply (classify_compatible latest found t i); assumption.
    + destruct (Z.eq_dec i (len t)) as [-> | Hne].
      * right. exists None. apply classify_at_end; assumption.
      * destruct (neighbours_exist t i Hr Hnz Hne) as (prev & next & Hp & Hn).
        right. rewrite (classify_inside latest found t i prev next Hi Hnz Hne Hc Hp Hn).
        destruct (is_compatible_with found (fst prev)); [eexists; reflexivity |].
        destruct (is_compatible_with found (fst next)); eexists; reflexivity.
Qed.

(* ===================================================================== *)
(** ** Properties of the matcher *)
(* ===================================================================== *)

Section GreedyFacts.
Context {R : Type}.
Variable cs : Re.charset.
Variable k : string -> string -> option R.

(** Nothing to take: the rest of the pattern runs at once. *)
Lemma repeat_greedy_stop (taken rest : string) :
  starts_outside cs rest = true ->
  Re.repeat_greedy cs k taken rest = k taken rest.
Proof.
  destruct rest as [| c rest']; cbn; [reflexivity |].
  intros H. apply negb_true_iff in H. rewrite H. reflexivity.
Qed.

(** The longest run is tried first: when the rest of the pattern accepts
    it, that is the answer. *)
Lemma repeat_greedy_max (d rest : string) (r : R) :
  all_in cs d = true ->
  starts_outside cs rest = true ->
  forall taken, k (taken ++ d) rest = Some r ->
    Re.repeat_greedy cs k taken (d ++ rest) = Some r.
Proof.
  intros Hd Hrest. induction d as [| c d' IH]; intros taken Hk.
  - cbn [append]. rewrite repeat_greedy_stop by exact Hrest.
    rewrite append_empty_r in Hk. exact Hk.
  - cbn [all_in] in Hd. apply andb_true_iff in Hd as [Hc Hd'].
    cbn [append Re.repeat_greedy]. rewrite Hc.
    rewrite (IH Hd' (taken ++ String c "")); [reflexivity |].
    rewrite append_assoc. exact Hk.
Qed.

(** A rest of the pattern that accepts whatever it is given makes the
    repetition succeed. *)
Lemma repeat_greedy_accepts (P : R -> Prop) :
  (forall taken rest, exists r, k taken rest = Some r /\ P r) ->
  forall rest taken, exists r, Re.repeat_greedy cs k taken rest = Some r /\ P r.
Proof.
  intros Hk. induction rest as [| c rest' IH]; intros taken.
  - cbn. apply Hk.
  - cbn. destruct (Re.mem cs c); [| apply Hk].
    destruct (IH (taken ++ String c "")) as (r & Hr & HP).
    rewrite Hr. exists r. split; [reflexivity | exact HP].
Qed.

(** Whatever the repetition answers, the rest of the pattern answered it
    for some run that was taken. *)
Lemma repeat_greedy_sound (rest taken : string) (r : R) :
  Re.repeat_greedy cs k taken rest = Some r ->
  exists d rest', rest = d ++ rest' /\ all_in cs d = true
                  /\ k (taken ++ d) rest' = Some r.
Proof.
  revert taken. induction rest as [| c rest0 IH]; intros taken H.
  - exists "", "". rewrite (append_empty_r taken). repeat split. exact H.
  - cbn [Re.repeat_greedy] in H.
    assert (Hhere : k taken (String c rest0) = Some r ->
                    exists d rest', String c rest0 = d ++ rest' /\ all_in cs d = true
                                    /\ k (taken ++ d) rest' = Some r).
    { intros Hk. exists "", (String c rest0). rewrite (append_empty_r taken).
      repeat split. exact Hk. }
    destruct (Re.mem cs c) eqn:Hc; [| exact (Hhere H)].
    destruct (Re.repeat_greedy cs k (taken ++ String c "") rest0) as [r' |] eqn:Hdeep;
      [| exact (Hhere H)].
    injection H as ->.
    destruct (IH _ Hdeep) as (d & rest' & -> & Hd & Hk).
    exists (String c d), rest'. cbn [append all_in]. rewrite Hc, Hd.
    rewrite append_assoc in Hk. repeat split. exact Hk.
Qed.

(** When the rest of the pattern accepts some run, the repetition
    answers (for that run or a longer one). *)
Lemma repeat_greedy_complete (d rest : string) :
  all_in cs d = true ->
  forall taken, k (taken ++ d) rest <> None ->
    Re.repeat_greedy cs k taken (d ++ rest) <> None.
Proof.
  intros Hd. induction d as [| c d' IH]; intros taken Hk.
  - rewrite append_empty_r in Hk. cbn [append].
    destruct rest as [| c rest0]; cbn [Re.repeat_greedy]; [exact Hk |].
    destruct (Re.mem cs c); [| exact Hk].
    destruct (Re.repeat_greedy cs k (taken ++ String c "") rest0); [discriminate | exact Hk].
  - cbn [all_in] in Hd. apply andb_true_iff in Hd as [Hc Hd'].
    cbn [append Re.repeat_greedy]. rewrite Hc.
    assert (Hdeep : Re.repeat_greedy cs k (taken ++ String c "") (d' ++ rest) <> None)
      by (apply (IH Hd'); rewrite append_assoc; exact Hk).
    destruct (Re.repeat_greedy cs k (taken ++ String c "") (d' ++ rest));
      [discriminate | contradiction].
Qed.

End GreedyFacts.

(** One greedy item of a pattern, when the longest run is accepted. *)
Lemma match_here_rep_max (name : option string) (min : nat) (cs : Re.charset)
    (p' : list Re.node) (pos : nat) (d rest : string)
    (g : list (string * string)) (r : Re.match_object) :
  all_in cs d = true ->
  (min <= String.length d)%nat ->
  starts_outside cs rest = true ->
  Re.match_here p' (pos + String.length d) rest (Re.record_group name d g) = Some r ->
  Re.match_here (Re.Rep name min cs :: p') pos (d ++ rest) g = Some r.
Proof.
  intros Hd Hmin Hrest Hk. cbn [Re.match_here].
  apply repeat_greedy_max; [exact Hd | exact Hrest |].
  cbn [append].
  destruct (Nat.ltb_spec (String.length d) min); [lia | exact Hk].
Qed.

(** A one-character item that accepts the next character. *)
Lemma match_here_one (cs : Re.charset) (p' : list Re.node) (pos : nat)
    (c : ascii) (s' : string) (g : list (string * string)) :
  Re.mem cs c = true ->
  Re.match_here (Re.One cs :: p') pos (String c s') g = Re.match_here p' (S pos) s' g.
Proof. intros H. cbn [Re.match_here]. rewrite H. reflexivity. Qed.

(** One greedy item with no run to take and a positive minimum. *)
Lemma match_here_rep_none (name : option string) (min : nat) (cs : Re.charset)
    (p' : list Re.node) (pos : nat) (s : string) (g : list (string * string)) :
  starts_outside cs s = true -> (0 < min)%nat ->
  Re.match_here (Re.Rep name min cs :: p') pos s g = None.
Proof.
  intros Hs Hmin. cbn [Re.match_here].
  rewrite repeat_greedy_stop by exact Hs. cbn [String.length].
  destruct (Nat.ltb_spec 0 min); [reflexivity | lia].
Qed.

(** The trailing [\S*] accepts any text and leaves the groups alone. *)
Lemma match_here_trailing (cs : Re.charset) (pos : nat) (s : string)
    (g : list (string * string)) :
  exists e, Re.match_here [Re.Rep None 0 cs] pos s g
            = Some {| Re.groupdict := g; Re.match_end := e |}.
Proof.
  cbn [Re.match_here].
  destruct (repeat_greedy_accepts cs
              (fun taken rest : string =>
                 if Nat.ltb (String.length taken) 0 then None
                 else Some {| Re.groupdict := Re.record_group None taken g;
                              Re.match_end := (pos + String.length taken)%nat |})
              (fun r => Re.groupdict r = g)) with (rest := s) (taken := "")
    as (r & Hr & Hg).
  - intros taken rest. eexists. split; [reflexivity | reflexivity].
  - exists (Re.match_end r). rewrite Hr. destruct r; cbn in *. subst. reflexivity.
Qed.

(** A pattern anchored with [^] can only match at offset 0. *)
Lemma search_from_anchored_later (p : list Re.node) (s : string) (pos : nat) :
  Re.search_from (Re.Bol :: p) (S pos) s = None.
Proof.
  revert pos. induction s as [| c s' IH]; intros pos; cbn; [reflexivity |].
  apply IH.
Qed.

Lemma search_anchored (p : list Re.node) (s : string) :
  Re.search (Re.Bol :: p) s = Re.match_here p 0 s [].
Proof.
  unfold Re.search. destruct s as [| c s']; cbn [Re.search_from Re.match_here Nat.eqb].
  - destruct (Re.match_here p 0 "" []); reflexivity.
  - rewrite search_from_anchored_later.
    destruct (Re.match_here p 0 (String c s') []); reflexivity.
Qed.

(* ===================================================================== *)
(** ** Decimal texts *)
(* ===================================================================== *)

Lemma uint_text_digits (d : uint) : all_in Re.Digit (NilEmpty.string_of_uint d) = true.
Proof. induction d; cbn [NilEmpty.string_of_uint all_in]; try rewrite IHd; reflexivity. Qed.

Lemma uint_text_nonempty (d : uint) :
  d <> Nil -> (1 <= String.length (NilEmpty.string_of_uint d))%nat.
Proof. destruct d; cbn; intros H; try lia. congruence. Qed.

(** What [str] writes for a number that is not negative. *)
Lemma str_int_nonneg (a : Z) :
  0 <= a ->
  exists d, d <> Nil /\ str_int a = NilEmpty.string_of_uint d /\ Z.of_uint d = a.
Proof.
  intros Ha. destruct a as [| p | p]; [| | lia].
  - exists (D0 Nil). repeat split. discriminate.
  - exists (Pos.to_uint p). split; [apply DecimalPos.Unsigned.to_uint_nonnil |].
    split.
    + unfold str_int. cbn [Z.to_int NilZero.string_of_int].
      pose proof (DecimalPos.Unsigned.to_uint_nonnil p) as Hn.
      destruct (Pos.to_uint p); try reflexivity. congruence.
    + unfold Z.of_uint. rewrite DecimalPos.Unsigned.of_to. reflexivity.
Qed.

Lemma str_int_digits (a : Z) :
  0 <= a ->
  all_in Re.Digit (str_int a) = true /\ (1 <= String.length (str_int a))%nat.
Proof.
  intros Ha. destruct (str_int_nonneg a Ha) as (d & Hd & -> & _).
  split; [apply uint_text_digits | apply uint_text_nonempty, Hd].
Qed.

(** [int(str(a)) == a], within the limit on digits. *)
Lemma int_str_int (a : Z) :
  0 <= a -> (String.length (str_int a) <= int_max_str_digits)%nat ->
  int (str_int a) = ret a.
Proof.
  intros Ha Hfit. destruct (str_int_nonneg a Ha) as (d & Hd & Hs & Hv).
  unfold int. apply Nat.leb_le in Hfit. rewrite Hfit. rewrite Hs.
  replace (NilEmpty.string_of_uint d) with (NilZero.string_of_uint d)
    by (destruct d; try reflexivity; congruence).
  rewrite (NilZero.usu d Hd), Hv. reflexivity.
Qed.

(* ===================================================================== *)
(** ** What [_RE_SEMVER] matches, and what [from_str] makes of it *)
(* ===================================================================== *)

(** Three runs of digits, a dot after the first, any one character that
    is neither a digit nor a newline after the second, and a rest that
    does not go on with a digit. *)
Lemma semver_search (d1 d2 d3 suffix : string) (sep : ascii) :
  all_in Re.Digit d1 = true -> (1 <= String.length d1)%nat ->
  all_in Re.Digit d2 = true -> (1 <= String.length d2)%nat ->
  all_in Re.Digit d3 = true -> (1 <= String.length d3)%nat ->
  Re.mem Re.AnyChar sep = true -> isdigit sep = false ->
  starts_outside Re.Digit suffix = true ->
  exists e,
    Re.search _RE_SEMVER (d1 ++ "." ++ d2 ++ String sep (d3 ++ suffix))
    = Some {| Re.groupdict := [("major", d1); ("minor", d2); ("patch", d3)];
              Re.match_end := e |}.
Proof.
  intros H1 L1 H2 L2 H3 L3 Hsep Hnd Hsuf.
  unfold _RE_SEMVER. rewrite search_anchored.
  destruct (match_here_trailing Re.NonSpace
              (S (S (0 + String.length d1) + String.length d2) + String.length d3)
              suffix [("major", d1); ("minor", d2); ("patch", d3)]) as (e & He).
  exists e.
  apply match_here_rep_max; [exact H1 | exact L1 | reflexivity |].
  change ("." ++ d2 ++ String sep (d3 ++ suffix))
    with (String "."%char (d2 ++ String sep (d3 ++ suffix))).
  rewrite match_here_one by reflexivity.
  apply match_here_rep_max;
    [exact H2 | exact L2 | cbn [starts_outside Re.mem]; rewrite Hnd; reflexivity |].
  rewrite match_here_one by exact Hsep.
  apply match_here_rep_max; [exact H3 | exact L3 | exact Hsuf |].
  exact He.
Qed.

Lemma from_str_runs (d1 d2 d3 suffix : string) (sep : ascii) (a b c : Z) :
  all_in Re.Digit d1 = true -> (1 <= String.length d1)%nat ->
  all_in Re.Digit d2 = true -> (1 <= String.length d2)%nat ->
  all_in Re.Digit d3 = true -> (1 <= String.length d3)%nat ->
  Re.mem Re.AnyChar sep = true -> isdigit sep = false ->
  starts_outside Re.Digit suffix = true ->
  int d1 = ret a -> int d2 = ret b -> int d3 = ret c ->
  from_str (d1 ++ "." ++ d2 ++ String sep (d3 ++ suffix)) = ret (mkSemVer a b c).
Proof.
  intros H1 L1 H2 L2 H3 L3 Hsep Hnd Hsuf Ha Hb Hc.
  destruct (semver_search d1 d2 d3 suffix sep H1 L1 H2 L2 H3 L3 Hsep Hnd Hsuf)
    as (e & He).
  unfold from_str. rewrite He.
  unfold Re.group. cbn [Re.groupdict Re.lookup String.eqb Ascii.eqb Bool.eqb].
  rewrite !bind_ret, Ha, !bind_ret, Hb, !bind_ret, Hc, !bind_ret. reflexivity.
Qed.

(** The text [a.b.c] followed by a suffix that is not numeric. *)
Lemma from_str_formatted (a b c : Z) (suffix : string) :
  0 <= a -> 0 <= b -> 0 <= c ->
  (String.length (str_int a) <= int_max_str_digits)%nat ->
  (String.length (str_int b) <= int_max_str_digits)%nat ->
  (String.length (str_int c) <= int_max_str_digits)%nat ->
  non_numeric suffix = true ->
  from_str (str_int a ++ "." ++ str_int b ++ "." ++ str_int c ++ suffix)
  = ret (mkSemVer a b c).
Proof.
  intros Ha Hb Hc Fa Fb Fc Hsuf.
  destruct (str_int_digits a Ha) as [Da La].
  destruct (str_int_digits b Hb) as [Db Lb].
  destruct (str_int_digits c Hc) as [Dc Lc].
  change ("." ++ str_int c ++ suffix) with (String "."%char (str_int c ++ suffix)).
  apply from_str_runs; auto using int_str_int.
Qed.

(** No digit at the very start: no match, wherever digits come later. *)
Lemma from_str_no_leading_digit (value : string) :
  starts_outside Re.Digit value = true ->
  from_str value = raise (ValueError ("can't parse given semver: " ++ value) []).
Proof.
  intros H. unfold from_str, _RE_SEMVER.
  rewrite search_anchored, match_here_rep_none by (exact H || lia).
  reflexivity.
Qed.

(* ===================================================================== *)
(** ** Exactly which texts are parsed *)
(* ===================================================================== *)

Lemma match_here_rep_sound (name : option string) (min : nat) (cs : Re.charset)
    (p' : list Re.node) (pos : nat) (s : string)
    (g : list (string * string)) (r : Re.match_object) :
  Re.match_here (Re.Rep name min cs :: p') pos s g = Some r ->
  exists d rest, s = d ++ rest /\ all_in cs d = true /\ (min <= String.length d)%nat
    /\ Re.match_here p' (pos + String.length d) rest (Re.record_group name d g) = Some r.
Proof.
  cbn [Re.match_here]. intros H.
  apply repeat_greedy_sound in H. destruct H as (d & rest & -> & Hd & Hk).
  cbn [append] in Hk.
  destruct (Nat.ltb_spec (String.length d) min); [discriminate |].
  exists d, rest. repeat split; assumption.
Qed.

Lemma match_here_one_sound (cs : Re.charset) (p' : list Re.node) (pos : nat)
    (s : string) (g : list (string * string)) (r : Re.match_object) :
  Re.match_here (Re.One cs :: p') pos s g = Some r ->
  exists c s', s = String c s' /\ Re.mem cs c = true
               /\ Re.match_here p' (S pos) s' g = Some r.
Proof.
  cbn [Re.match_here]. destruct s as [| c s']; [discriminate |].
  destruct (Re.mem cs c) eqn:Hc; [| discriminate].
  intros H. exists c, s'. repeat split; assumption.
Qed.

Lemma match_here_rep_complete (name : option string) (min : nat) (cs : Re.charset)
    (p' : list Re.node) (pos : nat) (d rest : string) (g : list (string * string)) :
  all_in cs d = true -> (min <= String.length d)%nat ->
  Re.match_here p' (pos + String.length d) rest (Re.record_group name d g) <> None ->
  Re.match_here (Re.Rep name min cs :: p') pos (d ++ rest) g <> None.
Proof.
  intros Hd Hmin Hk. cbn [Re.match_here].
  apply repeat_greedy_complete; [exact Hd |]. cbn [append].
  destruct (Nat.ltb_spec (String.length d) min); [lia | exact Hk].
Qed.

Lemma mem_any_char (c : ascii) : Re.mem Re.AnyChar c = true <-> c <> "010"%char.
Proof.
  cbn [Re.mem]. rewrite negb_true_iff. split.
  - intros H ->. cbn in H. discriminate.
  - intros H. apply Ascii.eqb_neq. exact H.
Qed.

Lemma mem_lit (c c' : ascii) : Re.mem (Re.Lit c') c = true <-> c = c'.
Proof. cbn [Re.mem]. apply Ascii.eqb_eq. Qed.

(** A match of [_RE_SEMVER] cuts the text into the accepted shape and
    holds the three runs of digits under their names. *)
Lemma semver_search_sound (value : string) (m : Re.match_object) :
  Re.search _RE_SEMVER value = Some m ->
  exists (d1 d2 d3 rest : string) (sep : ascii),
    value = d1 ++ "." ++ d2 ++ String sep (d3 ++ rest)
    /\ digit_run d1 /\ digit_run d2 /\ digit_run d3 /\ sep <> "010"%char
    /\ Re.groupdict m = [("major", d1); ("minor", d2); ("patch", d3)].
Proof.
  unfold _RE_SEMVER. rewrite search_anchored. intros H.
  apply match_here_rep_sound in H. destruct H as (d1 & r1 & -> & D1 & L1 & H).
  apply match_here_one_sound in H. destruct H as (dot & r2 & -> & Hdot & H).
  apply mem_lit in Hdot. subst dot.
  apply match_here_rep_sound in H. destruct H as (d2 & r3 & -> & D2 & L2 & H).
  apply match_here_one_sound in H. destruct H as (sep & r4 & -> & Hsep & H).
  apply mem_any_char in Hsep.
  apply match_here_rep_sound in H. destruct H as (d3 & rest & -> & D3 & L3 & H).
  destruct (match_here_trailing Re.NonSpace
              (S (S (0 + String.length d1) + String.length d2) + String.length d3) rest
              (Re.record_group (Some "patch") d3
                 (Re.record_group (Some "minor") d2
                    (Re.record_group (Some "major") d1 [])))) as (e & He).
  rewrite He in H. injection H as <-.
  exists d1, d2, d3, rest, sep. unfold digit_run. repeat split; assumption.
Qed.

(** Every accepted text is matched. *)
Lemma semver_search_complete (value : string) :
  accepted value -> Re.search _RE_SEMVER value <> None.
Proof.
  intros (d1 & d2 & d3 & rest & sep & -> & [D1 L1] & [D2 L2] & [D3 L3] & Hsep).
  unfold _RE_SEMVER. rewrite search_anchored.
  apply match_here_rep_complete; [exact D1 | exact L1 |].
  change ("." ++ d2 ++ String sep (d3 ++ rest))
    with (String "."%char (d2 ++ String sep (d3 ++ rest))).
  rewrite match_here_one by reflexivity.
  apply match_here_rep_complete; [exact D2 | exact L2 |].
  rewrite match_here_one by (apply mem_any_char; exact Hsep).
  apply match_here_rep_complete; [exact D3 | exact L3 |].
  destruct (match_here_trailing Re.NonSpace
              (S (S (0 + String.length d1) + String.length d2) + String.length d3) rest
              (Re.record_group (Some "patch") d3
                 (Re.record_group (Some "minor") d2
                    (Re.record_group (Some "major") d1 [])))) as (e & He).
  rewrite He. discriminate.
Qed.

Lemma uint_of_digits (d : string) :
  all_in Re.Digit d = true -> exists u, NilEmpty.uint_of_string d = Some u.
Proof.
  induction d as [| c d IH]; intros H.
  - exists Nil. reflexivity.
  - cbn [all_in] in H. apply andb_true_iff in H as [Hc Hd].
    destruct (IH Hd) as (u & Hu). cbn [NilEmpty.uint_of_string]. rewrite Hu.
    cbn [Re.mem] in Hc.
    destruct c as [[|] [|] [|] [|] [|] [|] [|] [|]]; try discriminate Hc;
      eexists; reflexivity.
Qed.

(** [int] answers on a run of digits within the limit, with a number
    that is not negative. *)
Lemma int_of_digit_run (d : string) :
  digit_run d ->
  (String.length d <= int_max_str_digits)%nat ->
  exists n, int d = ret n /\ 0 <= n.
Proof.
  intros [Hd Hl] Hfit. destruct (uint_of_digits d Hd) as (u & Hu).
  unfold int, NilZero.uint_of_string. apply Nat.leb_le in Hfit. rewrite Hfit.
  destruct d as [| c d']; [cbn in Hl; lia |].
  rewrite Hu. exists (Z.of_uint u). split; [reflexivity |].
  unfold Z.of_uint. apply N2Z.is_nonneg.
Qed.

(** [int] refuses a run of digits beyond the limit. *)
Lemma int_too_long (d : string) :
  digit_run d ->
  (int_max_str_digits < String.length d)%nat ->
  int d = raise (ValueError (exceeds_to_int (String.length d)) []).
Proof.
  intros [Hd Hl] Hlong. destruct (uint_of_digits d Hd) as (u & Hu).
  unfold int, NilZero.uint_of_string.
  destruct (Nat.leb_spec (String.length d) int_max_str_digits) as [Hle | _]; [lia |].
  destruct d as [| c d']; [cbn in Hl; lia |].
  rewrite Hu. reflexivity.
Qed.

(** What [from_str] makes of a match: the version, when the three runs
    are within the limit; the [ValueError] of [int] for the first run
    that is not, otherwise. *)
Lemma from_str_of_match (value : string) (m : Re.match_object) (d1 d2 d3 : string) :
  Re.search _RE_SEMVER value = Some m ->
  Re.groupdict m = [("major", d1); ("minor", d2); ("patch", d3)] ->
  digit_run d1 -> digit_run d2 -> digit_run d3 ->
  ( (String.length d1 <= int_max_str_digits)%nat
    /\ (String.length d2 <= int_max_str_digits)%nat
    /\ (String.length d3 <= int_max_str_digits)%nat
    /\ exists v, from_str value = ret v
                 /\ 0 <= major v /\ 0 <= minor v /\ 0 <= patch v )
  \/ exists n, (int_max_str_digits < n)%nat
               /\ (n = String.length d1 \/ n = String.length d2 \/ n = String.length d3)
               /\ from_str value = raise (ValueError (exceeds_to_int n) []).
Proof.
  intros Hm Hg R1 R2 R3. unfold from_str. rewrite Hm.
  unfold Re.group. rewrite Hg. cbn [Re.lookup String.eqb Ascii.eqb Bool.eqb].
  rewrite !bind_ret.
  destruct (le_lt_dec (String.length d1) int_max_str_digits) as [F1 | L1].
  2:{ right. exists (String.length d1). rewrite (int_too_long d1 R1 L1).
      repeat split; auto. }
  destruct (int_of_digit_run d1 R1 F1) as (a & Ha & Ha0). rewrite Ha, !bind_ret.
  destruct (le_lt_dec (String.length d2) int_max_str_digits) as [F2 | L2].
  2:{ right. exists (String.length d2). rewrite (int_too_long d2 R2 L2).
      repeat split; auto. }
  destruct (int_of_digit_run d2 R2 F2) as (b & Hb & Hb0). rewrite Hb, !bind_ret.
  destruct (le_lt_dec (String.length d3) int_max_str_digits) as [F3 | L3].
  2:{ right. exists (String.length d3). rewrite (int_too_long d3 R3 L3).
      repeat split; auto. }
  destruct (int_of_digit_run d3 R3 F3) as (c & Hc & Hc0). rewrite Hc, !bind_ret.
  left. repeat split; try assumption.
  exists (mkSemVer a b c). cbn [major minor patch]. repeat split; assumption.
Qed.

(** The runs of digits of a match are parts of the text. *)
Lemma accepted_lengths (d1 d2 d3 rest : string) (sep : ascii) :
  (String.length d1 <= String.length (d1 ++ "." ++ d2 ++ String sep (d3 ++ rest))
   /\ String.length d2 <= String.length (d1 ++ "." ++ d2 ++ String sep (d3 ++ rest))
   /\ String.length d3 <= String.length (d1 ++ "." ++ d2 ++ String sep (d3 ++ rest)))%nat.
Proof.
  rewrite !append_length. cbn [String.length]. rewrite !append_length. lia.
Qed.

(** A text [from_str] returns on is of the accepted form. *)
Lemma from_str_returns_accepted (value : string) (v : SemVer) :
  from_str value = ret v -> accepted value.
Proof.
  intros Hv. unfold from_str in Hv.
  destruct (Re.search _RE_SEMVER value) as [m |] eqn:Hm; [| discriminate].
  destruct (semver_search_sound value m Hm)
    as (d1 & d2 & d3 & rest & sep & Hval & R1 & R2 & R3 & Hsep & _).
  exists d1, d2, d3, rest, sep. tauto.
Qed.

(** The ways [from_str] ends: a version with fields that are not
    negative; its own [ValueError], on a text that is not of the accepted
    form; the [ValueError] of [int], on a text of the accepted form with
    a run of more digits than the limit. *)
Lemma from_str_outcomes (value : string) :
  (exists v, from_str value = ret v
             /\ 0 <= major v /\ 0 <= minor v /\ 0 <= patch v)
  \/ (from_str value = raise (ValueError ("can't parse given semver: " ++ value) [])
      /\ ~ accepted value)
  \/ (exists n, (int_max_str_digits < n <= String.length value)%nat
                /\ from_str value = raise (ValueError (exceeds_to_int n) [])
                /\ accepted value).
Proof.
  destruct (Re.search _RE_SEMVER value) as [m |] eqn:Hm.
  - destruct (semver_search_sound value m Hm)
      as (d1 & d2 & d3 & rest & sep & Hv & R1 & R2 & R3 & Hsep & Hg).
    destruct (from_str_of_match value m d1 d2 d3 Hm Hg R1 R2 R3)
      as [(_ & _ & _ & Hret) | (n & Hn & Hwhich & Hraise)].
    + left. exact Hret.
    + right; right. exists n. split; [| split; [exact Hraise |]].
      * pose proof (accepted_lengths d1 d2 d3 rest sep) as Hl.
        rewrite <- Hv in Hl. lia.
      * exists d1, d2, d3, rest, sep. tauto.
  - right; left. split.
    + unfold from_str. rewrite Hm. reflexivity.
    + intros Hacc. apply (semver_search_complete value Hacc), Hm.
Qed.

(** Within the limit, [from_str] parses every accepted text. *)
Lemma from_str_accepted (value : string) :
  accepted value ->
  (String.length value <= int_max_str_digits)%nat ->
  exists v, from_str value = ret v /\ 0 <= major v /\ 0 <= minor v /\ 0 <= patch v.
Proof.
  intros Hacc Hfit.
  destruct (from_str_outcomes value) as [Hret | [[_ Hno] | (n & Hn & _)]].
  - exact Hret.
  - contradiction.
  - lia.
Qed.

Lemma from_str_succeeds_iff (value : string) :
  (String.length value <= int_max_str_digits)%nat ->
  ((exists v, from_str value = ret v) <-> accepted value).
Proof.
  intros Hfit. split.
  - intros (v & Hv). apply (from_str_returns_accepted value v Hv).
  - intros Hacc. destruct (from_str_accepted value Hacc Hfit) as (v & Hv & _).
    exists v. exact Hv.
Qed.

Lemma from_str_not_accepted (value : string) :
  ~ accepted value ->
  from_str value = raise (ValueError ("can't parse given semver: " ++ value) []).
Proof.
  intros Hno. unfold from_str.
  destruct (Re.search _RE_SEMVER value) as [m |] eqn:Hm; [| reflexivity].
  exfalso. apply Hno.
  destruct (semver_search_sound value m Hm)
    as (d1 & d2 & d3 & rest & sep & Hv & R1 & R2 & R3 & Hsep & _).
  exists d1, d2, d3, rest, sep. repeat split; try assumption; apply R1 || apply R2 || apply R3.
Qed.

(* ===================================================================== *)
(** ** The diagnostic tells its fallback *)
(* ===================================================================== *)

Lemma clauses_differ : _ERROR_NEWER <> _ERROR_OLDER.
Proof. intros H. apply String.eqb_eq in H. vm_compute in H. discriminate. Qed.

Lemma uint_text_chars (d : uint) (ch : ascii) :
  In ch (list_ascii_of_string (NilEmpty.string_of_uint d)) -> isdigit ch = true.
Proof.
  induction d; cbn; intros H; try contradiction;
    destruct H as [<- | H]; try reflexivity; apply IHd, H.
Qed.

(** [str] of an int is made of digits and, at most, a minus sign. *)
Lemma str_int_chars (n : Z) (ch : ascii) :
  In ch (list_ascii_of_string (str_int n)) -> ch = "-"%char \/ isdigit ch = true.
Proof.
  unfold str_int, NilZero.string_of_int, NilZero.string_of_uint.
  destruct (Z.to_int n) as [d | d].
  - intros H. right. destruct d; try (apply (uint_text_chars _ ch H)).
    cbn in H. destruct H as [<- | []]. reflexivity.
  - cbn [list_ascii_of_string]. intros [<- | H]; [left; reflexivity | right].
    destruct d; try (apply (uint_text_chars _ ch H)).
    cbn in H. destruct H as [<- | []]. reflexivity.
Qed.

Lemma str_int_without (c : ascii) (n : Z) :
  c <> "-"%char -> isdigit c = false -> ~ In c (list_ascii_of_string (str_int n)).
Proof.
  intros Hm Hd H. destruct (str_int_chars n c H) as [-> | Hdig]; congruence.
Qed.

Lemma str_int_inj (a b : Z) : str_int a = str_int b -> a = b.
Proof.
  unfold str_int. intros H.
  assert (Hnz : forall n, Z.to_int n <> Pos Nil /\ Z.to_int n <> Neg Nil).
  { intros [| p | p]; cbn; split; try discriminate;
      intros E; injection E as E; apply (DecimalPos.Unsigned.to_uint_nonnil p E). }
  apply DecimalZ.to_int_inj.
  destruct (Hnz a) as [Ha1 Ha2]. destruct (Hnz b) as [Hb1 Hb2].
  pose proof (NilZero.isi (Z.to_int a) Ha1 Ha2) as Ia.
  pose proof (NilZero.isi (Z.to_int b) Hb1 Hb2) as Ib.
  rewrite H in Ia. congruence.
Qed.

Lemma SemVer_str_inj (v v' : SemVer) : SemVer_str v = SemVer_str v' -> v = v'.
Proof.
  unfold SemVer_str. intros H.
  apply append_inv_head in H.
  change (", minor=" ++ ?x) with (String ","%char (" minor=" ++ x)) in H.
  apply append_inv_separator in H;
    try (apply str_int_without; [discriminate | reflexivity]).
  destruct H as [Hmaj H]. apply append_inv_head in H.
  change (", patch=" ++ ?x) with (String ","%char (" patch=" ++ x)) in H.
  apply append_inv_separator in H;
    try (apply str_int_without; [discriminate | reflexivity]).
  destruct H as [Hmin H]. apply append_inv_head in H.
  apply append_inv_tail in H.
  apply SemVer_eq_fields; apply str_int_inj; assumption.
Qed.

Lemma fallback_clause_inj (p p' : option SemVer) :
  fallback_clause p = fallback_clause p' -> p = p'.
Proof.
  destruct p as [v |], p' as [v' |]; cbn [fallback_clause]; intros H;
    try reflexivity; try discriminate H.
  unfold _ERROR_PREVIOUSLY_SUPPORTED in H.
  do 2 apply append_inv_head in H.
  apply append_inv_tail in H. f_equal. apply SemVer_str_inj, H.
Qed.

(** For given versions, the diagnostic names its fallback library
    version, or the absence of one, without ambiguity. *)
Lemma diagnostic_fallback_inj (my your : SemVer) (p p' : option SemVer) :
  diagnostic my your p = diagnostic my your p' -> p = p'.
Proof.
  unfold diagnostic. intros H.
  cbn [String.concat] in H.
  apply append_inv_head in H. cbn [append] in H.
  apply append_inv_head in H. cbn [append] in H.
  apply append_inv_tail in H.
  apply fallback_clause_inj, H.
Qed.

(** A [RuntimeError] out of [_raise_error] carries the diagnostic of
    its arguments, which can all be written. *)
Lemma raise_error_message {A} (my your : SemVer) (p : option SemVer) (msg : string) :
  _raise_error (A := A) my your p = raise (RuntimeError msg) ->
  msg = diagnostic my your p
  /\ printable my = true /\ printable your = true /\ printable_opt p = true.
Proof.
  rewrite raise_error_unfold.
  destruct (printable my), (printable your), (printable_opt p);
    cbn [andb]; intros H; try discriminate H.
  unfold raise in H. injection H as <-. repeat split.
Qed.

Lemma raise_error_printable {A} (my your : SemVer) (p : option SemVer) :
  printable my = true -> printable your = true -> printable_opt p = true ->
  _raise_error (A := A) my your p = raise (RuntimeError (diagnostic my your p)).
Proof. intros H1 H2 H3. rewrite raise_error_unfold, H1, H2, H3. reflexivity. Qed.

Lemma raise_error_fallback_inj (my your : SemVer) (p p' : option SemVer) (msg : string) :
  _raise_error (A := unit) my your p = raise (RuntimeError msg) ->
  _raise_error (A := unit) my your p' = raise (RuntimeError msg) ->
  p = p'.
Proof.
  intros H H'.
  apply raise_error_message in H, H'. destruct H as [-> _], H' as [H' _].
  apply (diagnostic_fallback_inj my your), H'.
Qed.

(** [_raise_error] always raises, and prints nothing. *)
Lemma raise_error_raises {A} (my your : SemVer) (p : option SemVer) :
  exists e, _raise_error (A := A) my your p = raise e
            /\ (e = RuntimeError (diagnostic my your p)
                \/ e = ValueError exceeds_to_str []).
Proof.
  rewrite raise_error_unfold.
  destruct (printable my && printable your && printable_opt p);
    eexists; split; try reflexivity; auto.
Qed.



(** A concrete text is within the limit by computation. *)
Lemma within_limit (s : string) :
  (String.length s <=? int_max_str_digits)%nat = true ->
  (String.length s <= int_max_str_digits)%nat.
Proof. apply Nat.leb_le. Qed.


Lemma printable_hint (t : list (SemVer * SemVer)) (e : SemVer * SemVer) :
  printable_hints t = true -> In e t -> printable (snd e) = true.
Proof.
  unfold printable_hints. intros H Hin.
  rewrite forallb_forall in H. apply (H e Hin).
Qed.

(** The text [a.b.c] with a number whose numeral is beyond the limit:
    [int] refuses the first such group. *)
Lemma from_str_formatted_too_long (a b c : Z) (suffix : string) :
  0 <= a -> 0 <= b -> 0 <= c ->
  non_numeric suffix = true ->
  (int_max_str_digits < String.length (str_int a)
   \/ int_max_str_digits < String.length (str_int b)
   \/ int_max_str_digits < String.length (str_int c))%nat ->
  exists n, (int_max_str_digits < n)%nat
            /\ from_str (str_int a ++ "." ++ str_int b ++ "." ++ str_int c ++ suffix)
               = raise (ValueError (exceeds_to_int n) []).
Proof.
  intros Ha Hb Hc Hsuf Hlong.
  destruct (str_int_digits a Ha) as [Da La].
  destruct (str_int_digits b Hb) as [Db Lb].
  destruct (str_int_digits c Hc) as [Dc Lc].
  change ("." ++ str_int c ++ suffix) with (String "."%char (str_int c ++ suffix)).
  destruct (semver_search (str_int a) (str_int b) (str_int c) suffix "."%char)
    as (e & He); auto.
  destruct (from_str_of_match _ _ (str_int a) (str_int b) (str_int c) He eq_refl)
    as [(F1 & F2 & F3 & _) | (n & Hn & _ & Hraise)];
    try (split; assumption).
  - lia.
  - exists n. split; assumption.
Qed.

(** A computation that returns without a line printed went through
    computations that did so. *)
Lemma bind_ret_inv {A B} (m : M A) (k : A -> M B) (b : B) :
  bind m k = ret b -> exists a, m = ret a /\ k a = ret b.
Proof.
  destruct m as [out [a | e]]; cbn [bind]; [| discriminate].
  destruct (k a) as [out' r] eqn:Hk. unfold ret. intros H.
  injection H as Hout ->.
  apply app_eq_nil in Hout as [-> ->].
  exists a. split; [reflexivity | exact Hk].
Qed.

Lemma uint_text_length (u : Decimal.uint) :
  String.length (NilEmpty.string_of_uint u) = Decimal.nb_digits u.
Proof. induction u; cbn [NilEmpty.string_of_uint String.length Decimal.nb_digits]; congruence. Qed.

Lemma uint_of_string_length (d : string) (u : Decimal.uint) :
  NilEmpty.uint_of_string d = Some u -> Decimal.nb_digits u = String.length d.
Proof.
  revert u. induction d as [| c d IH]; intros u H.
  - cbn in H. injection H as <-. reflexivity.
  - cbn [NilEmpty.uint_of_string] in H.
    destruct (NilEmpty.uint_of_string d) as [u' |]; [| discriminate].
    specialize (IH u' eq_refl). cbn [String.length]. rewrite <- IH.
    unfold uint_of_char in H.
    destruct c as [[|] [|] [|] [|] [|] [|] [|] [|]]; try discriminate H;
      injection H as <-; reflexivity.
Qed.

(** The number [int] reads in a text has no more digits than the text:
    whatever [int] returns, [str] can write. *)
Lemma int_result_digits (d : string) (n : Z) :
  int d = ret n -> 0 <= n /\ (ndigits n <= int_max_str_digits)%nat.
Proof.
  unfold int. destruct (NilZero.uint_of_string d) as [u |] eqn:Hu; [| discriminate].
  destruct (Nat.leb_spec (String.length d) int_max_str_digits) as [Hfit | _];
    [| discriminate].
  unfold ret. intros H. injection H as <-.
  assert (Hnn : 0 <= Z.of_uint u) by (unfold Z.of_uint; apply N2Z.is_nonneg).
  split; [exact Hnn |].
  unfold ndigits. rewrite Z.abs_eq by exact Hnn.
  assert (Hd : NilEmpty.uint_of_string d = Some u /\ d <> "").
  { unfold NilZero.uint_of_string in Hu. destruct d; [discriminate | split; [exact Hu | discriminate]]. }
  destruct Hd as [Hd Hne].
  pose proof (uint_of_string_length d u Hd) as Hlen.
  assert (Hun : u <> Nil).
  { intros ->. destruct d; [congruence | cbn in Hlen; discriminate]. }
  unfold str_int.
  change (Z.of_uint u) with (Z.of_int (Pos u)).
  rewrite DecimalZ.to_of. cbn [norm NilZero.string_of_int].
  pose proof (DecimalFacts.nb_digits_unorm u Hun) as Hle.
  assert (Hs : NilZero.string_of_uint (unorm u) = NilEmpty.string_of_uint (unorm u)).
  { unfold NilZero.string_of_uint.
    destruct (unorm u) eqn:E; try reflexivity.
    exfalso. apply (DecimalFacts.unorm_nonnil u). exact E. }
  rewrite Hs, uint_text_length. lia.
Qed.

(** A version that [from_str] returns is one that [str] can write. *)
Lemma from_str_printable (value : string) (v : SemVer) :
  from_str value = ret v -> printable v = true.
Proof.
  unfold from_str.
  destruct (Re.search _RE_SEMVER value) as [m |]; [| discriminate].
  intros H.
  apply bind_ret_inv in H as (a & Ha & H).
  apply bind_ret_inv in H as (b & Hb & H).
  apply bind_ret_inv in H as (c & Hc & H).
  unfold ret in H. injection H as <-.
  apply bind_ret_inv in Ha as (ta & _ & Ha).
  apply bind_ret_inv in Hb as (tb & _ & Hb).
  apply bind_ret_inv in Hc as (tc & _ & Hc).
  apply int_result_digits in Ha as [_ Ha].
  apply int_result_digits in Hb as [_ Hb].
  apply int_result_digits in Hc as [_ Hc].
  unfold printable. cbn [major minor patch].
  apply Nat.leb_le in Ha, Hb, Hc. rewrite Ha, Hb, Hc. reflexivity.
Qed.

(* ===================================================================== *)
(** ** The specification's claims *)
(* ===================================================================== *)



(** [table[i-1]] wins even when [table[i]] is release-compatible too. *)
Example both_neighbours_compatible :
  _test_compatibility (mkSemVer 0 43 0) (mkSemVer 0 42 0)
    [ (mkSemVer 0 42 0, mkSemVer 0 1 0);
      (mkSemVer 0 42 5, mkSemVer 0 2 0);
      (mkSemVer 0 43 0, mkSemVer 0 3 0) ]
  = _raise_error (mkSemVer 0 43 0) (mkSemVer 0 42 0) (Some (mkSemVer 0 1 0)).
Proof. reflexivity. Qed.





(** C4, as the code has it.  For all non-negative [a], [b], [c] of at
    most 4300 decimal digits each and every suffix that is not numeric
    (empty, or beginning with a character that is not a digit), parsing
    the text [a.b.c] followed by the suffix succeeds with the version
    [(a, b, c)]: the suffix changes nothing.  So does ["0.43.1-abc123"],
    which parses to [(0, 43, 1)]. *)
Theorem C4_parse_formatted (a b c : Z) (suffix : string) :
  0 <= a -> 0 <= b -> 0 <= c ->
  (String.length (str_int a) <= int_max_str_digits)%nat ->
  (String.length (str_int b) <= int_max_str_digits)%nat ->
  (String.length (str_int c) <= int_max_str_digits)%nat ->
  non_numeric suffix = true ->
  from_str (str_int a ++ "." ++ str_int b ++ "." ++ str_int c ++ suffix)
  = ret (mkSemVer a b c)
  /\ from_str (str_int a ++ "." ++ str_int b ++ "." ++ str_int c ++ suffix)
     = from_str (str_int a ++ "." ++ str_int b ++ "." ++ str_int c ++ "")
  /\ from_str "0.43.1-abc123" = ret (mkSemVer 0 43 1).
Proof.
  intros Ha Hb Hc Fa Fb Fc Hsuf.
  rewrite !from_str_formatted by (assumption || reflexivity).
  repeat split; reflexivity.
Qed.

Lemma C4_witness :
  0 <= 0 /\ 0 <= 43 /\ 0 <= 1
  /\ (String.length (str_int 0) <= int_max_str_digits)%nat
  /\ (String.length (str_int 43) <= int_max_str_digits)%nat
  /\ (String.length (str_int 1) <= int_max_str_digits)%nat
  /\ non_numeric "-abc123" = true
  /\ from_str (str_int 0 ++ "." ++ str_int 43 ++ "." ++ str_int 1 ++ "-abc123")
     = ret (mkSemVer 0 43 1).
Proof.
  refine (conj _ (conj _ (conj _
           (conj (within_limit (str_int 0) eq_refl)
              (conj (within_limit (str_int 43) eq_refl)
                 (conj (within_limit (str_int 1) eq_refl) (conj eq_refl _)))))));
    try lia.
  refine (proj1 (C4_parse_formatted 0 43 1 "-abc123" _ _ _
                   (within_limit (str_int 0) eq_refl)
                   (within_limit (str_int 43) eq_refl)
                   (within_limit (str_int 1) eq_refl) eq_refl)); lia.
Defined.

(** The claim for all non-negative integers fails at [a = 10 ^ 4300],
    whose numeral has 4301 digits: [int] refuses the major group. *)
Lemma C4_counterexample :
  0 <= 10 ^ 4300
  /\ non_numeric "" = true
  /\ from_str (str_int (10 ^ 4300) ++ "." ++ str_int 0 ++ "." ++ str_int 0 ++ "")
     = raise (ValueError (exceeds_to_int 4301) [])
  /\ from_str (str_int (10 ^ 4300) ++ "." ++ str_int 0 ++ "." ++ str_int 0 ++ "")
     <> ret (mkSemVer (10 ^ 4300) 0 0).
Proof.
  assert (H : from_str (str_int (10 ^ 4300) ++ "." ++ str_int 0 ++ "." ++ str_int 0 ++ "")
              = raise (ValueError (exceeds_to_int 4301) []))
    by (vm_compute; reflexivity).
  split; [apply Z.pow_nonneg; lia |]. split; [reflexivity |].
  split; [exact H |]. rewrite H. discriminate.
Qed.

(** C5.  The second separator of the pattern is a bare [.], so a text
    whose minor and patch digits are separated by something else than a
    dot is parsed all the same, and so is a text with two components
    only, whose last digit is taken for the patch. *)
Theorem C5_second_separator_is_any_character :
  from_str "1.2x3" = ret (mkSemVer 1 2 3)
  /\ from_str "1.2-3" = ret (mkSemVer 1 2 3)
  /\ from_str "1.234" = ret (mkSemVer 1 2 4)
  /\ from_str "not-a-version" = raise (ValueError "can't parse given semver: not-a-version" [])
  /\ from_str "" = raise (ValueError "can't parse given semver: " [])
  /\ from_str "banana" = raise (ValueError "can't parse given semver: banana" []).
Proof. repeat split; reflexivity. Qed.




(** C7, as the code has it.  A component is a Python [int], which has no
    width: whatever the bound [2 ^ w], a component at or above it whose
    numeral is within the limit of [int] on digits is parsed to its
    exact value, which is not that value wrapped to [w] bits.  Parsing
    fails on the size of a component only beyond that limit, with the
    [ValueError] of [int]. *)
Theorem C7_components_are_unbounded (w a b c : Z) (suffix : string) :
  0 <= w -> 0 <= a -> 0 <= b -> 0 <= c ->
  2 ^ w <= a \/ 2 ^ w <= b \/ 2 ^ w <= c ->
  non_numeric suffix = true ->
  ( (String.length (str_int a) <= int_max_str_digits)%nat ->
    (String.length (str_int b) <= int_max_str_digits)%nat ->
    (String.length (str_int c) <= int_max_str_digits)%nat ->
    from_str (str_int a ++ "." ++ str_int b ++ "." ++ str_int c ++ suffix)
    = ret (mkSemVer a b c) )
  /\ mkSemVer a b c <> mkSemVer (a mod 2 ^ w) (b mod 2 ^ w) (c mod 2 ^ w)
  /\ ( (int_max_str_digits < String.length (str_int a)
        \/ int_max_str_digits < String.length (str_int b)
        \/ int_max_str_digits < String.length (str_int c))%nat ->
       exists n, (int_max_str_digits < n)%nat
                 /\ from_str (str_int a ++ "." ++ str_int b ++ "." ++ str_int c ++ suffix)
                    = raise (ValueError (exceeds_to_int n) []) ).
Proof.
  intros Hw Ha Hb Hc Hbig Hsuf. split; [| split].
  - intros Fa Fb Fc. apply from_str_formatted; assumption.
  - intros H. injection H as Ea Eb Ec.
    assert (Hpos : 0 < 2 ^ w) by (apply Z.pow_pos_nonneg; lia).
    pose proof (Z.mod_pos_bound a (2 ^ w) Hpos).
    pose proof (Z.mod_pos_bound b (2 ^ w) Hpos).
    pose proof (Z.mod_pos_bound c (2 ^ w) Hpos).
    lia.
  - apply from_str_formatted_too_long; assumption.
Qed.

Lemma C7_witness :
  0 <= 64 /\ 0 <= 2 ^ 64 /\ 0 <= 0 /\ 0 <= 0
  /\ (2 ^ 64 <= 2 ^ 64 \/ 2 ^ 64 <= 0 \/ 2 ^ 64 <= 0)
  /\ non_numeric "" = true
  /\ (String.length (str_int (2 ^ 64)) <= int_max_str_digits)%nat
  /\ from_str (str_int (2 ^ 64) ++ "." ++ str_int 0 ++ "." ++ str_int 0 ++ "")
     = ret (mkSemVer (2 ^ 64) 0 0).
Proof.
  refine (conj _ (conj _ (conj _ (conj _ (conj (or_introl _) (conj eq_refl
            (conj (within_limit (str_int (2 ^ 64)) eq_refl) _)))))));
    try lia.
  refine (proj1 (C7_components_are_unbounded 64 (2 ^ 64) 0 0 "" _ _ _ _
                   (or_introl _) eq_refl)
            (within_limit (str_int (2 ^ 64)) eq_refl)
            (within_limit (str_int 0) eq_refl)
            (within_limit (str_int 0) eq_refl)); lia.
Defined.

(** The claim that a component beyond the integer width is a parse error
    fails on a major component of [2 ^ 128], above every standard width:
    it is parsed, exactly. *)
Lemma C7_counterexample :
  from_str "340282366920938463463374607431768211456.0.0"
  = ret (mkSemVer (2 ^ 128) 0 0)
  /\ (forall msg notes,
        from_str "340282366920938463463374607431768211456.0.0"
        <> raise (ValueError msg notes))
  /\ from_str "18446744073709551616.4294967296.65536"
     = ret (mkSemVer (2 ^ 64) (2 ^ 32) (2 ^ 16)).
Proof.
  split; [reflexivity |]. split; [| reflexivity].
  intros msg notes H. vm_compute in H. discriminate.
Qed.

(** C8.  Two versions are release-compatible exactly when their major
    and minor fields are equal; the patch fields play no part.  The
    relation is reflexive, 0.42.0 is compatible with 0.42.9 and not with
    0.43.0. *)
Theorem C8_release_compatibility (v1 v2 : SemVer) :
  (is_compatible_with v1 v2 = true <-> major v1 = major v2 /\ minor v1 = minor v2)
  /\ (forall p1 p2 : Z,
        is_compatible_with (mkSemVer (major v1) (minor v1) p1)
                           (mkSemVer (major v2) (minor v2) p2)
        = is_compatible_with v1 v2)
  /\ is_compatible_with v1 v1 = true
  /\ is_compatible_with (mkSemVer 0 42 0) (mkSemVer 0 42 9) = true
  /\ is_compatible_with (mkSemVer 0 42 0) (mkSemVer 0 43 0) = false.
Proof.
  split; [apply is_compatible_with_spec |].
  split; [intros p1 p2; reflexivity |].
  split; [apply is_compatible_with_refl |].
  split; reflexivity.
Qed.

(** C9.  In a strictly increasing table whose last fzf version is the
    latest supported one, a run that ends with the incompatibility
    diagnostic has an installed version different from the latest one.
    The diagnostic's second part is the one [_raise_error] chooses by
    [your_version > my_version]; it says newer exactly for a version
    above the latest, and older only for a version below it. *)
Theorem C9_diagnostic_never_for_equal_version
    (t : list (SemVer * SemVer)) (last : SemVer * SemVer)
    (found : SemVer) (msg : string) :
  strictly_increasing t = true ->
  getitem t (-1) = ret last ->
  snd (_test_compatibility (fst last) found t) = Raise (RuntimeError msg) ->
  found <> fst last
  /\ (SemVer_gt found (fst last) = true \/ SemVer_lt found (fst last) = true)
  /\ (exists p, msg = String.concat ""
                  [ _ERROR_HEADER (fst last) found; age_clause (fst last) found;
                    fallback_clause p; _ERROR_EPILOGUE ])
  /\ (age_clause (fst last) found = _ERROR_NEWER <-> SemVer_gt found (fst last) = true)
  /\ (age_clause (fst last) found = _ERROR_OLDER <-> SemVer_lt found (fst last) = true).
Proof.
  intros Hs Hlast Hrun.
  assert (Hne : found <> fst last).
  { intros ->.
    destruct (bisect_returns SemVer_lt fst t (fst last)) as (i & Hi & _).
    pose proof (bisect_of_last_nonzero t last i Hs Hlast Hi) as Hnz.
    rewrite (classify_compatible (fst last) (fst last) t i Hi Hnz
               (is_compatible_with_refl _)) in Hrun.
    discriminate. }
  split; [exact Hne |].
  assert (Hage : (SemVer_gt found (fst last) = true /\ SemVer_lt found (fst last) = false)
                 \/ (SemVer_gt found (fst last) = false /\ SemVer_lt found (fst last) = true)).
  { destruct (SemVer_trichotomy found (fst last)) as [(L & _ & G) | [(_ & E & _) | (L & _ & G)]];
      [right | contradiction | left]; split; assumption. }
  split; [destruct Hage as [[G _] | [_ L]]; [left | right]; assumption |].
  split.
  - destruct (classify_outcomes (fst last) found t) as [H | [p H]];
      rewrite H in Hrun; [discriminate |].
    exists p.
    destruct (raise_error_raises (A := unit) (fst last) found p) as (e & He & [-> | ->]);
      rewrite He in Hrun; cbn in Hrun; [| discriminate].
    injection Hrun as <-. reflexivity.
  - unfold age_clause.
    pose proof clauses_differ as Hd.
    destruct Hage as [[G L] | [G L]]; rewrite G, L; split; split; intros H;
      solve [reflexivity | discriminate H | congruence].
Qed.

Lemma C9_witness :
  strictly_increasing all_supported_versions = true
  /\ getitem all_supported_versions (-1) = ret (mkSemVer 0 43 0, mkSemVer 0 2 0)
  /\ snd (_test_compatibility (mkSemVer 0 43 0) (mkSemVer 0 44 0) all_supported_versions)
     = snd (_raise_error (A := unit) (mkSemVer 0 43 0) (mkSemVer 0 44 0) None)
  /\ mkSemVer 0 44 0 <> mkSemVer 0 43 0
  /\ age_clause (mkSemVer 0 43 0) (mkSemVer 0 44 0) = _ERROR_NEWER.
Proof.
  refine (conj eq_refl (conj eq_refl (conj eq_refl _))).
  destruct (C9_diagnostic_never_for_equal_version all_supported_versions
              (mkSemVer 0 43 0, mkSemVer 0 2 0) (mkSemVer 0 44 0) _
              eq_refl eq_refl eq_refl) as (Hne & _ & _ & Hnewer & _).
  exact (conj Hne (proj2 Hnewer eq_refl)).
Defined.

(** C10.  The pattern is anchored at the first character: parsing a text
    whose first character is not a digit fails, whatever follows, a
    well-formed version included (["v1.2.3"], [" 1.2.3"]), while the same
    version at the very start is parsed. *)
Theorem C10_first_character_must_be_a_digit (c : ascii) (rest : string) :
  isdigit c = false ->
  from_str (String c rest)
  = raise (ValueError ("can't parse given semver: " ++ String c rest) [])
  /\ from_str "v1.2.3" = raise (ValueError "can't parse given semver: v1.2.3" [])
  /\ from_str " 1.2.3" = raise (ValueError "can't parse given semver:  1.2.3" [])
  /\ from_str "1.2.3" = ret (mkSemVer 1 2 3).
Proof.
  intros Hc. split; [| repeat split; reflexivity].
  apply from_str_no_leading_digit. cbn. rewrite Hc. reflexivity.
Qed.

Lemma C10_witness :
  isdigit "v"%char = false
  /\ from_str (String "v"%char "1.2.3")
     = raise (ValueError ("can't parse given semver: " ++ String "v"%char "1.2.3") []).
Proof.
  refine (conj eq_refl _).
  exact (proj1 (C10_first_character_must_be_a_digit "v"%char "1.2.3" eq_refl)).
Defined.

(* ===================================================================== *)
(** ** Further properties: the order on versions *)
(* ===================================================================== *)

(** Between two release-compatible versions there are only versions
    compatible with both. *)
Lemma compatible_between (a b c : SemVer) :
  SemVer_lt b a = false -> SemVer_lt c b = false ->
  is_compatible_with a c = true ->
  is_compatible_with a b = true /\ is_compatible_with b c = true.
Proof.
  intros Hab Hbc Hac.
  assert (Nab : ~ SemVer_lt b a = true) by congruence.
  assert (Nbc : ~ SemVer_lt c b = true) by congruence.
  rewrite SemVer_lt_spec in Nab, Nbc.
  rewrite !is_compatible_with_spec in *. lia.
Qed.

(** X1.  The comparisons generated by [order=True] make a strict total
    order, the lexicographic one on [(major, minor, patch)]: [<] is
    irreflexive and transitive, exactly one of [a < b], [a = b], [a > b]
    holds, and [a > b] is [b < a]. *)
Theorem X1_order_is_strict_and_total (a b c : SemVer) :
  (SemVer_lt a b = true <->
     major a < major b \/
     (major a = major b /\
        (minor a < minor b \/ (minor a = minor b /\ patch a < patch b))))
  /\ SemVer_lt a a = false
  /\ (SemVer_lt a b = true -> SemVer_lt b c = true -> SemVer_lt a c = true)
  /\ ( (SemVer_lt a b = true /\ a <> b /\ SemVer_gt a b = false)
       \/ (SemVer_lt a b = false /\ a = b /\ SemVer_gt a b = false)
       \/ (SemVer_lt a b = false /\ a <> b /\ SemVer_gt a b = true) )
  /\ SemVer_gt a b = SemVer_lt b a.
Proof.
  split; [apply SemVer_lt_spec |].
  split; [apply SemVer_lt_irrefl |].
  split; [apply SemVer_lt_trans |].
  split; [apply SemVer_trichotomy | apply SemVer_gt_lt].
Qed.

(** X2.  The versions release-compatible with a given one form an
    interval of the order: a version that lies between two compatible
    versions is compatible with both. *)
Theorem X2_compatible_versions_are_an_interval (a b c : SemVer) :
  SemVer_lt b a = false ->
  SemVer_lt c b = false ->
  is_compatible_with a c = true ->
  is_compatible_with a b = true /\ is_compatible_with b c = true.
Proof. apply compatible_between. Qed.

Lemma X2_witness :
  SemVer_lt (mkSemVer 0 42 5) (mkSemVer 0 42 0) = false
  /\ SemVer_lt (mkSemVer 0 42 9) (mkSemVer 0 42 5) = false
  /\ is_compatible_with (mkSemVer 0 42 0) (mkSemVer 0 42 9) = true
  /\ is_compatible_with (mkSemVer 0 42 0) (mkSemVer 0 42 5) = true
  /\ is_compatible_with (mkSemVer 0 42 5) (mkSemVer 0 42 9) = true.
Proof.
  refine (conj eq_refl (conj eq_refl (conj eq_refl _))).
  exact (X2_compatible_versions_are_an_interval
           (mkSemVer 0 42 0) (mkSemVer 0 42 5) (mkSemVer 0 42 9)
           eq_refl eq_refl eq_refl).
Defined.

(* ===================================================================== *)
(** ** Further properties: the parser *)
(* ===================================================================== *)

(** A leading zero does not change what [int] reads, as long as the
    text stays within the limit on digits. *)
Lemma int_leading_zero (d : string) :
  digit_run d ->
  (String.length d < int_max_str_digits)%nat ->
  int (String "0"%char d) = int d.
Proof.
  intros [Hd Hl] Hfit. destruct (uint_of_digits d Hd) as (u & Hu).
  assert (E1 : (String.length (String "0"%char d) <=? int_max_str_digits)%nat = true)
    by (apply Nat.leb_le; exact Hfit).
  assert (E2 : (String.length d <=? int_max_str_digits)%nat = true)
    by (apply Nat.leb_le; lia).
  unfold int. rewrite E1, E2. unfold NilZero.uint_of_string.
  destruct d as [| c d']; [cbn in Hl; lia |].
  cbn [NilEmpty.uint_of_string] in *. rewrite Hu. reflexivity.
Qed.

Lemma digit_run_leading_zero (d : string) :
  digit_run d -> digit_run (String "0"%char d).
Proof.
  intros [Hd Hl]. split; [cbn [all_in]; rewrite Hd; reflexivity | cbn; lia].
Qed.

(** X3.  A text for which [from_str] returns a version is made of a
    run of digits, a dot, a run of digits, one character that is not a
    newline, a run of digits, and any rest; and for every such text of
    at most 4300 characters [from_str] returns a version. *)
Theorem X3_parsed_texts (value : string) :
  ((exists v, from_str value = ret v) -> accepted value)
  /\ ((String.length value <= int_max_str_digits)%nat ->
      accepted value -> exists v, from_str value = ret v).
Proof.
  split.
  - intros (v & Hv). apply (from_str_returns_accepted value v Hv).
  - intros Hfit Hacc. apply (from_str_succeeds_iff value Hfit), Hacc.
Qed.

Lemma X3_witness :
  (String.length "1.2x3 rest" <= int_max_str_digits)%nat
  /\ accepted "1.2x3 rest"
  /\ exists v, from_str "1.2x3 rest" = ret v.
Proof.
  assert (R : forall d, all_in Re.Digit d = true ->
                        (1 <=? String.length d)%nat = true -> digit_run d).
  { intros d H1 H2. split; [exact H1 | apply Nat.leb_le, H2]. }
  assert (Hacc : accepted "1.2x3 rest").
  { exists "1", "2", "3", " rest", "x"%char.
    refine (conj eq_refl (conj (R "1" eq_refl eq_refl)
              (conj (R "2" eq_refl eq_refl) (conj (R "3" eq_refl eq_refl) _)))).
    discriminate. }
  refine (conj (within_limit "1.2x3 rest" eq_refl) (conj Hacc _)).
  exact (proj2 (X3_parsed_texts "1.2x3 rest")
           (within_limit "1.2x3 rest" eq_refl) Hacc).
Defined.

(** X4.  Whatever the text, [from_str] ends in one of three ways: it
    returns a version whose three fields are not negative; or the text
    is not of the accepted form and it raises the [ValueError] that
    quotes the text; or the text is of the accepted form, one of its
    runs of digits is longer than the limit of [int], and it raises the
    [ValueError] of [int] with the length of that run.  It raises
    nothing else and prints nothing. *)
Theorem X4_parse_outcomes (value : string) :
  (exists v, from_str value = ret v
             /\ 0 <= major v /\ 0 <= minor v /\ 0 <= patch v)
  \/ (from_str value = raise (ValueError ("can't parse given semver: " ++ value) [])
      /\ ~ accepted value)
  \/ (exists n, (int_max_str_digits < n <= String.length value)%nat
                /\ from_str value = raise (ValueError (exceeds_to_int n) [])
                /\ accepted value).
Proof. apply from_str_outcomes. Qed.

(** X5.  Leading zeros are read and dropped: a zero put in front of each
    of the three runs of digits gives the same version, as long as the
    longer runs stay within the limit of [int]. *)
Theorem X5_leading_zeros_are_dropped (d1 d2 d3 suffix : string) :
  digit_run d1 -> digit_run d2 -> digit_run d3 ->
  (String.length d1 < int_max_str_digits)%nat ->
  (String.length d2 < int_max_str_digits)%nat ->
  (String.length d3 < int_max_str_digits)%nat ->
  non_numeric suffix = true ->
  from_str (String "0"%char d1 ++ "." ++ String "0"%char d2 ++ "."
            ++ String "0"%char d3 ++ suffix)
  = from_str (d1 ++ "." ++ d2 ++ "." ++ d3 ++ suffix)
  /\ exists v, from_str (d1 ++ "." ++ d2 ++ "." ++ d3 ++ suffix) = ret v.
Proof.
  intros R1 R2 R3 F1 F2 F3 Hsuf.
  destruct (int_of_digit_run d1 R1 (Nat.lt_le_incl _ _ F1)) as (a & Ha & _).
  destruct (int_of_digit_run d2 R2 (Nat.lt_le_incl _ _ F2)) as (b & Hb & _).
  destruct (int_of_digit_run d3 R3 (Nat.lt_le_incl _ _ F3)) as (c & Hc & _).
  assert (Hplain : from_str (d1 ++ "." ++ d2 ++ "." ++ d3 ++ suffix)
                   = ret (mkSemVer a b c)).
  { change ("." ++ d3 ++ suffix) with (String "."%char (d3 ++ suffix)).
    destruct R1, R2, R3. apply from_str_runs; auto. }
  split; [| exists (mkSemVer a b c); exact Hplain].
  rewrite Hplain.
  pose proof (digit_run_leading_zero d1 R1) as [Z1 L1].
  pose proof (digit_run_leading_zero d2 R2) as [Z2 L2].
  pose proof (digit_run_leading_zero d3 R3) as [Z3 L3].
  change ("." ++ String "0"%char d3 ++ suffix)
    with (String "."%char (String "0"%char d3 ++ suffix)).
  apply from_str_runs; auto; rewrite int_leading_zero; assumption.
Qed.

Lemma X5_witness :
  digit_run "0" /\ digit_run "43" /\ digit_run "1"
  /\ (String.length "0" < int_max_str_digits)%nat
  /\ (String.length "43" < int_max_str_digits)%nat
  /\ (String.length "1" < int_max_str_digits)%nat
  /\ non_numeric "-abc" = true
  /\ from_str "00.043.01-abc" = from_str "0.43.1-abc".
Proof.
  assert (R : forall d, all_in Re.Digit d = true ->
                        (1 <=? String.length d)%nat = true -> digit_run d).
  { intros d H1 H2. split; [exact H1 | apply Nat.leb_le, H2]. }
  assert (B : forall d, (String.length d <? int_max_str_digits)%nat = true ->
                        (String.length d < int_max_str_digits)%nat).
  { intros d. apply Nat.ltb_lt. }
  refine (conj (R "0" eq_refl eq_refl)
            (conj (R "43" eq_refl eq_refl)
               (conj (R "1" eq_refl eq_refl)
                  (conj (B "0" eq_refl) (conj (B "43" eq_refl) (conj (B "1" eq_refl)
                     (conj eq_refl _))))))).
  exact (proj1 (X5_leading_zeros_are_dropped "0" "43" "1" "-abc"
                  (R "0" eq_refl eq_refl) (R "43" eq_refl eq_refl)
                  (R "1" eq_refl eq_refl)
                  (B "0" eq_refl) (B "43" eq_refl) (B "1" eq_refl) eq_refl)).
Defined.

(* ===================================================================== *)
(** ** Further properties: the insertion point and the verdict *)
(* ===================================================================== *)



(** X6.  In a strictly increasing table the index that
    [_test_compatibility] computes is the upper bound of the installed
    version: a position of the table such that the entries whose fzf
    version is above the installed one are exactly those from that
    position on. *)
Theorem X6_index_is_the_upper_bound (t : list (SemVer * SemVer)) (found : SemVer) :
  strictly_increasing t = true ->
  exists i,
    Bisect.bisect SemVer_lt fst t found = ret i
    /\ 0 <= i <= len t
    /\ forall (j : nat) (e : SemVer * SemVer),
         nth_error t j = Some e ->
         (SemVer_lt found (fst e) = true <-> i <= Z.of_nat j).
Proof.
  intros Hs.
  destruct (bisect_upper_bound SemVer_lt fst t found
              (strictly_increasing_partitioned t found Hs)) as (i & Hi & Hr & Hsp).
  exists i. split; [exact Hi |]. split; [exact Hr |].
  intros j e He. destruct (Hsp j e He) as [Hleft Hright]. split.
  - intros Habove. destruct (Z_lt_le_dec (Z.of_nat j) i) as [Hlt | Hle]; [| exact Hle].
    rewrite (Hleft Hlt) in Habove. discriminate.
  - exact Hright.
Qed.

Lemma X6_witness :
  strictly_increasing all_supported_versions = true
  /\ exists i,
       Bisect.bisect SemVer_lt fst all_supported_versions (mkSemVer 0 42 7) = ret i
       /\ 0 <= i <= len all_supported_versions
       /\ forall (j : nat) (e : SemVer * SemVer),
            nth_error all_supported_versions j = Some e ->
            (SemVer_lt (mkSemVer 0 42 7) (fst e) = true <-> i <= Z.of_nat j).
Proof.
  refine (conj eq_refl _).
  exact (X6_index_is_the_upper_bound all_supported_versions (mkSemVer 0 42 7) eq_refl).
Defined.



Lemma SemVer_lt_asym (a b : SemVer) : SemVer_lt a b = true -> SemVer_lt b a = false.
Proof.
  intros H. destruct (SemVer_lt b a) eqn:E; [| reflexivity].
  pose proof (SemVer_lt_trans a b a H E) as Haa.
  rewrite SemVer_lt_irrefl in Haa. discriminate.
Qed.

Lemma is_compatible_with_sym (a b : SemVer) :
  is_compatible_with a b = is_compatible_with b a.
Proof.
  unfold is_compatible_with.
  rewrite (Z.eqb_sym (major a)), (Z.eqb_sym (minor a)). reflexivity.
Qed.

(** In a strictly increasing table a later entry is never below an
    earlier one. *)
Lemma strictly_increasing_not_below (t : list (SemVer * SemVer)) :
  strictly_increasing t = true ->
  forall (j1 j2 : nat) (e1 e2 : SemVer * SemVer),
    nth_error t j1 = Some e1 -> nth_error t j2 = Some e2 -> (j1 <= j2)%nat ->
    SemVer_lt (fst e2) (fst e1) = false.
Proof.
  intros Hs j1 j2 e1 e2 H1 H2 Hle.
  destruct (Nat.eq_dec j1 j2) as [-> | Hne].
  - replace e2 with e1 by congruence. apply SemVer_lt_irrefl.
  - apply SemVer_lt_asym.
    apply (strictly_increasing_nth t Hs j1 j2 e1 e2 H1 H2). lia.
Qed.

(** The diagnostic that names a version was raised with that version. *)
Lemma raise_error_names (my your p : SemVer) (q : option SemVer) :
  _raise_error (A := unit) my your q = raise (RuntimeError (diagnostic my your (Some p))) ->
  q = Some p.
Proof.
  intros H. apply raise_error_message in H. destruct H as [H _].
  symmetry. apply (diagnostic_fallback_inj my your), H.
Qed.

(** A fallback named by the diagnostic comes from a neighbour of the
    insertion point that is release-compatible with the installed
    version. *)
Lemma fallback_sound (latest found p : SemVer) (t : list (SemVer * SemVer)) :
  _test_compatibility latest found t
  = raise (RuntimeError (diagnostic latest found (Some p))) ->
  exists (i : Z) (e : SemVer * SemVer),
    Bisect.bisect SemVer_lt fst t found = ret i
    /\ 0 < i < len t
    /\ (nth_error t (Z.to_nat (i - 1)) = Some e \/ nth_error t (Z.to_nat i) = Some e)
    /\ snd e = p
    /\ is_compatible_with found (fst e) = true
    /\ is_compatible_with found latest = false.
Proof.
  intros Hrun.
  destruct (bisect_returns SemVer_lt fst t found) as (i & Hi & Hr).
  destruct (Z.eq_dec i 0) as [-> | Hnz].
  { rewrite (classify_at_zero latest found t Hi) in Hrun.
    apply raise_error_names in Hrun. discriminate. }
  destruct (is_compatible_with found latest) eqn:Hc.
  { rewrite (classify_compatible latest found t i Hi Hnz Hc) in Hrun. discriminate. }
  destruct (Z.eq_dec i (len t)) as [-> | Hne].
  { rewrite (classify_at_end latest found t Hi Hc) in Hrun.
    apply raise_error_names in Hrun. discriminate. }
  destruct (neighbours_exist t i Hr Hnz Hne) as (prev & next & Hp & Hn).
  rewrite (classify_inside latest found t i prev next Hi Hnz Hne Hc Hp Hn) in Hrun.
  exists i.
  destruct (is_compatible_with found (fst prev)) eqn:Cp.
  - apply raise_error_names in Hrun. injection Hrun as Hrun.
    exists prev. repeat split; auto; lia.
  - destruct (is_compatible_with found (fst next)) eqn:Cn.
    + apply raise_error_names in Hrun. injection Hrun as Hrun.
      exists next. repeat split; auto; lia.
    + apply raise_error_names in Hrun. discriminate.
Qed.

(** In a strictly increasing table that ends with the latest version, an
    entry release-compatible with the installed version is found by the
    check: it calls [_raise_error] with the library version of such an
    entry. *)
Lemma fallback_complete
    (t : list (SemVer * SemVer)) (last : SemVer * SemVer) (found : SemVer) (i : Z) :
  strictly_increasing t = true ->
  getitem t (-1) = ret last ->
  Bisect.bisect SemVer_lt fst t found = ret i ->
  i <> 0 ->
  is_compatible_with found (fst last) = false ->
  (exists e, In e t /\ is_compatible_with found (fst e) = true) ->
  exists e', In e' t /\ is_compatible_with found (fst e') = true
             /\ _test_compatibility (fst last) found t
                = _raise_error (fst last) found (Some (snd e')).
Proof.
  intros Hs Hlast Hi Hnz Hc (e & Hin & Hce).
  apply In_nth_error in Hin. destruct Hin as (j & Hj).
  destruct (getitem_last t last Hlast) as [_ Hl].
  assert (Hjlt : (j < List.length t)%nat) by (apply nth_error_Some; congruence).
  pose proof (insertion_point_range t found i Hi) as Hr.
  destruct (bisect_upper_bound SemVer_lt fst t found
              (strictly_increasing_partitioned t found Hs)) as (i' & Hi' & _ & Hsp).
  rewrite Hi in Hi'. unfold ret in Hi'. injection Hi' as <-.
  assert (Hne : i <> len t).
  { intros ->.
    destruct (Hsp _ last Hl) as [Hnot _].
    assert (Hfl : SemVer_lt found (fst last) = false)
      by (apply Hnot; unfold len; lia).
    assert (Hle : SemVer_lt (fst last) (fst e) = false)
      by (apply (strictly_increasing_not_below t Hs j _ e last Hj Hl); lia).
    rewrite is_compatible_with_sym in Hce.
    destruct (compatible_between (fst e) (fst last) found Hle Hfl Hce) as [_ Hbad].
    rewrite is_compatible_with_sym in Hbad. congruence. }
  destruct (neighbours_exist t i Hr Hnz Hne) as (prev & next & Hp & Hn).
  rewrite (classify_inside (fst last) found t i prev next Hi Hnz Hne Hc Hp Hn).
  destruct (is_compatible_with found (fst prev)) eqn:Cp.
  { exists prev. split; [apply (nth_error_In _ _ Hp) |]. split; [exact Cp | reflexivity]. }
  destruct (is_compatible_with found (fst next)) eqn:Cn.
  { exists next. split; [apply (nth_error_In _ _ Hn) |]. split; [exact Cn | reflexivity]. }
  exfalso.
  destruct (Z_lt_le_dec (Z.of_nat j) i) as [Hlt | Hge].
  - (* e <= prev <= found *)
    destruct (Hsp _ prev Hp) as [Hnot _].
    assert (Hfp : SemVer_lt found (fst prev) = false) by (apply Hnot; lia).
    assert (Hle : SemVer_lt (fst prev) (fst e) = false)
      by (apply (strictly_increasing_not_below t Hs j _ e prev Hj Hp); lia).
    rewrite is_compatible_with_sym in Hce.
    destruct (compatible_between (fst e) (fst prev) found Hle Hfp Hce) as [_ Hbad].
    rewrite is_compatible_with_sym in Hbad. congruence.
  - (* found < next <= e *)
    destruct (Hsp _ next Hn) as [_ Habove].
    assert (Hfn : SemVer_lt found (fst next) = true) by (apply Habove; lia).
    assert (Hle : SemVer_lt (fst e) (fst next) = false)
      by (apply (strictly_increasing_not_below t Hs _ j next e Hn Hj); lia).
    destruct (compatible_between found (fst next) (fst e)
                (SemVer_lt_asym _ _ Hfn) Hle Hce) as [Hbad _].
    congruence.
Qed.

(** X8.  For any table: when the check raises the diagnostic that names
    a previously supported library version, that version is the one
    tabulated for [table[index-1]] or [table[index]], the index lies
    strictly inside the table, the fzf version of that entry is
    release-compatible with the installed one, and the installed one is
    not release-compatible with the latest. *)
Theorem X8_fallback_comes_from_a_compatible_neighbour
    (latest found p : SemVer) (t : list (SemVer * SemVer)) :
  _test_compatibility latest found t
  = raise (RuntimeError (diagnostic latest found (Some p))) ->
  exists (i : Z) (e : SemVer * SemVer),
    Bisect.bisect SemVer_lt fst t found = ret i
    /\ 0 < i < len t
    /\ (nth_error t (Z.to_nat (i - 1)) = Some e \/ nth_error t (Z.to_nat i) = Some e)
    /\ snd e = p
    /\ is_compatible_with found (fst e) = true
    /\ is_compatible_with found latest = false.
Proof. apply fallback_sound. Qed.

Lemma X8_witness :
  _test_compatibility (mkSemVer 0 43 0) (mkSemVer 0 42 3) all_supported_versions
  = raise (RuntimeError
             (diagnostic (mkSemVer 0 43 0) (mkSemVer 0 42 3) (Some (mkSemVer 0 1 0))))
  /\ exists (i : Z) (e : SemVer * SemVer),
       Bisect.bisect SemVer_lt fst all_supported_versions (mkSemVer 0 42 3) = ret i
       /\ 0 < i < len all_supported_versions
       /\ (nth_error all_supported_versions (Z.to_nat (i - 1)) = Some e
           \/ nth_error all_supported_versions (Z.to_nat i) = Some e)
       /\ snd e = mkSemVer 0 1 0
       /\ is_compatible_with (mkSemVer 0 42 3) (fst e) = true
       /\ is_compatible_with (mkSemVer 0 42 3) (mkSemVer 0 43 0) = false.
Proof.
  refine (conj eq_refl _).
  exact (X8_fallback_comes_from_a_compatible_neighbour
           (mkSemVer 0 43 0) (mkSemVer 0 42 3) (mkSemVer 0 1 0)
           all_supported_versions eq_refl).
Defined.

(** X9.  In a strictly increasing table whose last fzf version is the
    latest supported one, for an installed version that is not below the
    whole table (index not 0) and not release-compatible with the latest,
    all versions being within what [str] can write: the check raises the
    diagnostic that names a previously supported library version exactly
    when some entry of the table is release-compatible with the installed
    version.  Looking at the two neighbours of the index misses no
    entry. *)
Theorem X9_fallback_whenever_an_entry_is_compatible
    (t : list (SemVer * SemVer)) (last : SemVer * SemVer) (found : SemVer) (i : Z) :
  strictly_increasing t = true ->
  getitem t (-1) = ret last ->
  Bisect.bisect SemVer_lt fst t found = ret i ->
  i <> 0 ->
  is_compatible_with found (fst last) = false ->
  printable (fst last) = true ->
  printable found = true ->
  printable_hints t = true ->
  ( (exists e, In e t /\ is_compatible_with found (fst e) = true)
    <-> exists p, _test_compatibility (fst last) found t
                  = raise (RuntimeError (diagnostic (fst last) found (Some p))) ).
Proof.
  intros Hs Hlast Hi Hnz Hc Pl Pf Pt. split.
  - intros Hex.
    destruct (fallback_complete t last found i Hs Hlast Hi Hnz Hc Hex)
      as (e' & Hin & _ & Hrun).
    exists (snd e'). rewrite Hrun.
    apply raise_error_printable; try assumption.
    apply (printable_hint t e' Pt Hin).
  - intros (p & Hp).
    destruct (fallback_sound (fst last) found p t Hp) as (i' & e & _ & _ & Hnth & _ & Hce & _).
    exists e. split; [| exact Hce].
    destruct Hnth as [H | H]; apply (nth_error_In _ _ H).
Qed.

Lemma X9_witness :
  strictly_increasing all_supported_versions = true
  /\ getitem all_supported_versions (-1) = ret (mkSemVer 0 43 0, mkSemVer 0 2 0)
  /\ Bisect.bisect SemVer_lt fst all_supported_versions (mkSemVer 0 42 3) = ret 1
  /\ 1 <> 0
  /\ is_compatible_with (mkSemVer 0 42 3) (mkSemVer 0 43 0) = false
  /\ printable (mkSemVer 0 43 0) = true
  /\ printable (mkSemVer 0 42 3) = true
  /\ printable_hints all_supported_versions = true
  /\ ( (exists e, In e all_supported_versions
                  /\ is_compatible_with (mkSemVer 0 42 3) (fst e) = true)
       <-> exists p, _test_compatibility (mkSemVer 0 43 0) (mkSemVer 0 42 3)
                       all_supported_versions
                     = raise (RuntimeError
                                (diagnostic (mkSemVer 0 43 0) (mkSemVer 0 42 3) (Some p))) ).
Proof.
  refine (conj eq_refl (conj eq_refl (conj eq_refl (conj _ (conj eq_refl
            (conj eq_refl (conj eq_refl (conj eq_refl _))))))));
    [discriminate |].
  refine (X9_fallback_whenever_an_entry_is_compatible all_supported_versions
            (mkSemVer 0 43 0, mkSemVer 0 2 0) (mkSemVer 0 42 3) 1
            eq_refl eq_refl eq_refl _ eq_refl eq_refl eq_refl eq_refl).
  discriminate.
Defined.

(* ===================================================================== *)
(** ** Further properties: the diagnostic *)
(* ===================================================================== *)

(** The text of a version ends where it ends: what follows it is told
    apart from it. *)
Lemma SemVer_str_split (v v' : SemVer) (r r' : string) :
  SemVer_str v ++ r = SemVer_str v' ++ r' -> v = v' /\ r = r'.
Proof.
  unfold SemVer_str. rewrite !append_assoc. intros H.
  apply append_inv_head in H.
  change (", minor=" ++ ?x) with (String ","%char (" minor=" ++ x)) in H.
  apply append_inv_separator in H;
    try (apply str_int_without; [discriminate | reflexivity]).
  destruct H as [Hmaj H]. apply append_inv_head in H.
  change (", patch=" ++ ?x) with (String ","%char (" patch=" ++ x)) in H.
  apply append_inv_separator in H;
    try (apply str_int_without; [discriminate | reflexivity]).
  destruct H as [Hmin H]. apply append_inv_head in H.
  change (")" ++ ?x) with (String ")"%char x) in H.
  apply append_inv_separator in H;
    try (apply str_int_without; [discriminate | reflexivity]).
  destruct H as [Hpat Hr].
  split; [| exact Hr].
  apply SemVer_eq_fields; apply str_int_inj; assumption.
Qed.

Lemma diagnostic_inj (my your my' your' : SemVer) (p p' : option SemVer) :
  diagnostic my your p = diagnostic my' your' p' ->
  my = my' /\ your = your' /\ p = p'.
Proof.
  intros H. pose proof H as Hmsg.
  unfold diagnostic in Hmsg.
  cbn [String.concat] in Hmsg. unfold _ERROR_HEADER in Hmsg.
  rewrite !append_assoc in Hmsg.
  do 2 apply append_inv_head in Hmsg.
  apply SemVer_str_split in Hmsg. destruct Hmsg as [-> Hmsg].
  apply append_inv_head in Hmsg.
  apply SemVer_str_split in Hmsg. destruct Hmsg as [-> Hmsg].
  split; [reflexivity |]. split; [reflexivity |].
  apply (diagnostic_fallback_inj my' your'). exact H.
Qed.

Lemma raise_error_inj (my your my' your' : SemVer) (p p' : option SemVer) (msg : string) :
  _raise_error (A := unit) my your p = raise (RuntimeError msg) ->
  _raise_error (A := unit) my' your' p' = raise (RuntimeError msg) ->
  my = my' /\ your = your' /\ p = p'.
Proof.
  intros H H'.
  apply raise_error_message in H. destruct H as [H _].
  apply raise_error_message in H'. destruct H' as [H' _].
  apply diagnostic_inj. congruence.
Qed.

(** X10.  The diagnostic tells everything it was raised with: two calls
    of [_raise_error] that raise a [RuntimeError] with the same message
    were given the same latest version, the same installed version and
    the same previously supported version (or none both). *)
Theorem X10_diagnostic_determines_its_arguments
    (my your my' your' : SemVer) (p p' : option SemVer) (msg : string) :
  _raise_error (A := unit) my your p = raise (RuntimeError msg) ->
  _raise_error (A := unit) my' your' p' = raise (RuntimeError msg) ->
  my = my' /\ your = your' /\ p = p'.
Proof. apply raise_error_inj. Qed.

Lemma X10_witness :
  _raise_error (A := unit) (mkSemVer 0 43 0) (mkSemVer 0 42 0) (Some (mkSemVer 0 1 0))
  = raise (RuntimeError
             (diagnostic (mkSemVer 0 43 0) (mkSemVer 0 42 0) (Some (mkSemVer 0 1 0))))
  /\ mkSemVer 0 43 0 = mkSemVer 0 43 0 /\ mkSemVer 0 42 0 = mkSemVer 0 42 0
  /\ Some (mkSemVer 0 1 0) = Some (mkSemVer 0 1 0).
Proof.
  refine (conj eq_refl _).
  exact (X10_diagnostic_determines_its_arguments
           (mkSemVer 0 43 0) (mkSemVer 0 42 0) (mkSemVer 0 43 0) (mkSemVer 0 42 0)
           (Some (mkSemVer 0 1 0)) (Some (mkSemVer 0 1 0)) _ eq_refl eq_refl).
Defined.

(** X17.  How [_raise_error] ends.  When the versions it was given (the
    previously supported one, if any, included) all have fields of at
    most 4300 digits, it raises [RuntimeError] with the diagnostic made
    of the four parts; otherwise writing a version fails and it raises
    the [ValueError] of [str].  It never returns and prints nothing. *)
Theorem X17_how_the_diagnostic_is_raised
    (my your : SemVer) (p : option SemVer) :
  _raise_error (A := unit) my your p
  = if printable my && printable your && printable_opt p
    then raise (RuntimeError (diagnostic my your p))
    else raise (ValueError exceeds_to_str []).
Proof. apply raise_error_unfold. Qed.

(** An installed version of 4301 digits cannot be written. *)
Example raise_error_beyond_the_limit :
  _raise_error (A := unit) (mkSemVer 0 43 0) (mkSemVer (10 ^ 4300) 0 0) None
  = raise (ValueError exceeds_to_str []).
Proof. vm_compute. reflexivity. Qed.

(* ===================================================================== *)
(** ** Further properties: reading the installed version *)
(* ===================================================================== *)

Lemma lstrip_space_app (ws t : string) :
  all_space ws = true -> lstrip (ws ++ t) = lstrip t.
Proof.
  induction ws as [| c ws IH]; cbn [all_space append lstrip]; intros H; [reflexivity |].
  apply andb_true_iff in H as [Hc Hws]. rewrite Hc. apply IH, Hws.
Qed.

Lemma lstrip_all_space (ws : string) : all_space ws = true -> lstrip ws = "".
Proof.
  intros H. rewrite <- (append_empty_r ws). rewrite lstrip_space_app by exact H.
  reflexivity.
Qed.

Lemma rstrip_all_space (ws : string) : all_space ws = true -> rstrip ws = "".
Proof.
  induction ws as [| c ws IH]; cbn [all_space rstrip]; intros H; [reflexivity |].
  apply andb_true_iff in H as [Hc Hws]. rewrite (IH Hws), Hc. reflexivity.
Qed.

Lemma rstrip_space_app (t ws : string) :
  all_space ws = true -> rstrip (t ++ ws) = rstrip t.
Proof.
  intros H. induction t as [| c t IH]; cbn [append rstrip].
  - apply rstrip_all_space, H.
  - rewrite IH. reflexivity.
Qed.

(** Whitespace around a text does not survive [strip]. *)
Lemma strip_surrounded (ws1 t ws2 : string) :
  all_space ws1 = true -> all_space ws2 = true ->
  strip (ws1 ++ t ++ ws2) = strip t.
Proof.
  intros H1 H2. unfold strip. rewrite lstrip_space_app by exact H1.
  induction t as [| c t IH]; cbn [append lstrip].
  - rewrite lstrip_all_space by exact H2. reflexivity.
  - destruct (isspace c); [exact IH |].
    change (String c (t ++ ws2)) with (String c t ++ ws2).
    apply rstrip_space_app, H2.
Qed.

(** After a text without whitespace, [rstrip] works on what follows. *)
Lemma rstrip_after_solid (f y : string) :
  all_in Re.NonSpace f = true -> rstrip (f ++ y) = f ++ rstrip y.
Proof.
  induction f as [| c f IH]; cbn [all_in append rstrip]; intros H; [reflexivity |].
  apply andb_true_iff in H as [Hc Hf]. rewrite (IH Hf).
  cbn [Re.mem] in Hc. apply negb_true_iff in Hc.
  destruct (f ++ rstrip y); [rewrite Hc |]; reflexivity.
Qed.

Lemma rstrip_starts_outside (cs : Re.charset) (s : string) :
  starts_outside cs s = true -> starts_outside cs (rstrip s) = true.
Proof.
  destruct s as [| c s']; cbn [rstrip starts_outside]; intros H; [reflexivity |].
  destruct (rstrip s'); [destruct (isspace c) |]; cbn [starts_outside]; auto.
Qed.

Lemma digit_not_space (c : ascii) : isdigit c = true -> isspace c = false.
Proof.
  unfold isdigit, isspace. cbv zeta. intros H.
  apply andb_true_iff in H as [H1 H2]. apply N.leb_le in H1, H2.
  repeat match goal with
         | |- context [(?a <=? ?b)%N] => destruct (N.leb_spec a b)
         | |- context [(?a =? ?b)%N] => destruct (N.eqb_spec a b)
         end; cbn; try reflexivity; lia.
Qed.

Lemma all_in_app (cs : Re.charset) (x y : string) :
  all_in cs (x ++ y) = all_in cs x && all_in cs y.
Proof.
  induction x as [| c x IH]; cbn [append all_in]; [reflexivity |].
  rewrite IH, andb_assoc. reflexivity.
Qed.

Lemma digits_are_solid (d : string) :
  all_in Re.Digit d = true -> all_in Re.NonSpace d = true.
Proof.
  induction d as [| c d IH]; cbn [all_in Re.mem]; intros H; [reflexivity |].
  apply andb_true_iff in H as [Hc Hd].
  rewrite (digit_not_space c Hc), (IH Hd). reflexivity.
Qed.

(** The three numbers with their dots make a text without whitespace
    that begins with a digit. *)
Lemma dotted_solid (a b c : Z) :
  0 <= a -> 0 <= b -> 0 <= c ->
  all_in Re.NonSpace (str_int a ++ "." ++ str_int b ++ "." ++ str_int c) = true
  /\ exists ch rest, str_int a ++ "." ++ str_int b ++ "." ++ str_int c = String ch rest
                     /\ isspace ch = false.
Proof.
  intros Ha Hb Hc.
  destruct (str_int_digits a Ha) as [Da La].
  destruct (str_int_digits b Hb) as [Db Lb].
  destruct (str_int_digits c Hc) as [Dc Lc].
  split.
  - rewrite !all_in_app, (digits_are_solid _ Da), (digits_are_solid _ Db),
      (digits_are_solid _ Dc). reflexivity.
  - destruct (str_int a) as [| ch rest]; [cbn in La; lia |].
    exists ch, (rest ++ "." ++ str_int b ++ "." ++ str_int c).
    split; [reflexivity |].
    cbn [all_in] in Da. apply andb_true_iff in Da as [Dch _].
    apply digit_not_space, Dch.
Qed.

(** What [_get_installed_fzf_version] does with the two ways [from_str]
    ends. *)
Lemma get_installed_ok (fzf_stdout : string) (v : SemVer) :
  from_str (strip fzf_stdout) = ret v ->
  _get_installed_fzf_version fzf_stdout = ret v.
Proof. unfold _get_installed_fzf_version. intros ->. reflexivity. Qed.

Lemma get_installed_outcomes (fzf_stdout : string) :
  (exists v, _get_installed_fzf_version fzf_stdout = ret v
             /\ from_str (strip fzf_stdout) = ret v
             /\ 0 <= major v /\ 0 <= minor v /\ 0 <= patch v)
  \/ (_get_installed_fzf_version fzf_stdout
      = raise (ValueError ("can't parse given semver: " ++ strip fzf_stdout)
                 ["this semver was generated by running 'fzf --version'. "])
      /\ ~ accepted (strip fzf_stdout))
  \/ (exists n, (int_max_str_digits < n <= String.length (strip fzf_stdout))%nat
                /\ _get_installed_fzf_version fzf_stdout
                   = raise (ValueError (exceeds_to_int n)
                              ["this semver was generated by running 'fzf --version'. "])
                /\ accepted (strip fzf_stdout)).
Proof.
  destruct (from_str_outcomes (strip fzf_stdout))
    as [(v & Hv & Hn) | [(Hbad & Hno) | (n & Hn & Hbad & Hacc)]].
  - left. exists v. split; [apply get_installed_ok, Hv |]. split; assumption.
  - right. left. split; [| exact Hno].
    unfold _get_installed_fzf_version. rewrite Hbad. reflexivity.
  - right. right. exists n. split; [exact Hn |]. split; [| exact Hacc].
    unfold _get_installed_fzf_version. rewrite Hbad. reflexivity.
Qed.

(** X11.  Whitespace before and after the output of [fzf --version]
    plays no part in the version that is read, nor in the error that is
    raised. *)
Theorem X11_surrounding_whitespace_is_ignored (ws1 text ws2 : string) :
  all_space ws1 = true ->
  all_space ws2 = true ->
  _get_installed_fzf_version (ws1 ++ text ++ ws2) = _get_installed_fzf_version text.
Proof.
  intros H1 H2. unfold _get_installed_fzf_version.
  rewrite strip_surrounded by assumption. reflexivity.
Qed.

Lemma X11_witness :
  all_space " " = true
  /\ all_space (String "010"%char "") = true
  /\ _get_installed_fzf_version (" " ++ "0.43.0 (d3311d9)" ++ String "010"%char "")
     = _get_installed_fzf_version "0.43.0 (d3311d9)".
Proof.
  refine (conj eq_refl (conj eq_refl _)).
  exact (X11_surrounding_whitespace_is_ignored " " "0.43.0 (d3311d9)"
           (String "010"%char "") eq_refl eq_refl).
Defined.

(** X12.  When the output is, after some whitespace, the three numbers
    [a.b.c], of at most 4300 digits each, followed by anything that does
    not begin with a digit (a build tag, a newline), the installed
    version read is [(a, b, c)]. *)
Theorem X12_installed_version_is_read (ws suffix : string) (a b c : Z) :
  0 <= a -> 0 <= b -> 0 <= c ->
  (String.length (str_int a) <= int_max_str_digits)%nat ->
  (String.length (str_int b) <= int_max_str_digits)%nat ->
  (String.length (str_int c) <= int_max_str_digits)%nat ->
  all_space ws = true ->
  non_numeric suffix = true ->
  _get_installed_fzf_version
    (ws ++ str_int a ++ "." ++ str_int b ++ "." ++ str_int c ++ suffix)
  = ret (mkSemVer a b c).
Proof.
  intros Ha Hb Hc Fa Fb Fc Hws Hsuf. apply get_installed_ok.
  destruct (dotted_solid a b c Ha Hb Hc) as (Hsolid & ch & rest & Hhead & Hch).
  assert (Hshape : str_int a ++ "." ++ str_int b ++ "." ++ str_int c ++ suffix
                   = (str_int a ++ "." ++ str_int b ++ "." ++ str_int c) ++ suffix)
    by (rewrite !append_assoc; reflexivity).
  unfold strip. rewrite lstrip_space_app by exact Hws.
  rewrite Hshape.
  assert (Hl : lstrip ((str_int a ++ "." ++ str_int b ++ "." ++ str_int c) ++ suffix)
               = (str_int a ++ "." ++ str_int b ++ "." ++ str_int c) ++ suffix).
  { rewrite Hhead. cbn [append lstrip]. rewrite Hch. reflexivity. }
  rewrite Hl, rstrip_after_solid by exact Hsolid.
  rewrite !append_assoc.
  apply from_str_formatted; try assumption.
  apply rstrip_starts_outside, Hsuf.
Qed.

Lemma X12_witness :
  0 <= 0 /\ 0 <= 43 /\ 0 <= 0
  /\ (String.length (str_int 0) <= int_max_str_digits)%nat
  /\ (String.length (str_int 43) <= int_max_str_digits)%nat
  /\ all_space " " = true
  /\ non_numeric (" (d3311d9)" ++ String "010"%char "") = true
  /\ _get_installed_fzf_version
       (" " ++ str_int 0 ++ "." ++ str_int 43 ++ "." ++ str_int 0
        ++ " (d3311d9)" ++ String "010"%char "")
     = ret (mkSemVer 0 43 0).
Proof.
  refine (conj _ (conj _ (conj _
            (conj (within_limit (str_int 0) eq_refl)
               (conj (within_limit (str_int 43) eq_refl)
                  (conj eq_refl (conj eq_refl _)))))));
    try lia.
  refine (X12_installed_version_is_read " " (" (d3311d9)" ++ String "010"%char "")
            0 43 0 _ _ _
            (within_limit (str_int 0) eq_refl)
            (within_limit (str_int 43) eq_refl)
            (within_limit (str_int 0) eq_refl) eq_refl eq_refl); lia.
Defined.

(** X13.  Whatever the output, [_get_installed_fzf_version] ends in one
    of three ways.  It returns the version [from_str] reads in the
    stripped output, with fields that are not negative.  Or the stripped
    output is not of the accepted form and it raises [from_str]'s
    [ValueError] about the stripped output, with the note on where the
    text came from added.  Or the stripped output is of the accepted
    form with a run of digits longer than the limit of [int], and it
    raises the [ValueError] of [int], with the same note added. *)
Theorem X13_installed_version_outcomes (fzf_stdout : string) :
  (exists v, _get_installed_fzf_version fzf_stdout = ret v
             /\ from_str (strip fzf_stdout) = ret v
             /\ 0 <= major v /\ 0 <= minor v /\ 0 <= patch v)
  \/ (_get_installed_fzf_version fzf_stdout
      = raise (ValueError ("can't parse given semver: " ++ strip fzf_stdout)
                 ["this semver was generated by running 'fzf --version'. "])
      /\ ~ accepted (strip fzf_stdout))
  \/ (exists n, (int_max_str_digits < n <= String.length (strip fzf_stdout))%nat
                /\ _get_installed_fzf_version fzf_stdout
                   = raise (ValueError (exceeds_to_int n)
                              ["this semver was generated by running 'fzf --version'. "])
                /\ accepted (strip fzf_stdout)).
Proof. apply get_installed_outcomes. Qed.

(* ===================================================================== *)
(** ** Further properties: the check against the module's table *)
(* ===================================================================== *)





(** X16.  A version that [from_str] returns can be written: [str]
    returns its text, and [_raise_error], given it as the installed
    version next to versions that can be written, raises the
    [RuntimeError] with the diagnostic. *)
Theorem X16_parsed_versions_can_be_written (value : string) (v : SemVer) :
  from_str value = ret v ->
  printable v = true
  /\ SemVer_repr v = ret (SemVer_str v)
  /\ forall (my : SemVer) (p : option SemVer),
       printable my = true -> printable_opt p = true ->
       _raise_error (A := unit) my v p = raise (RuntimeError (diagnostic my v p)).
Proof.
  intros Hv. pose proof (from_str_printable value v Hv) as Pv.
  split; [exact Pv |]. split.
  - rewrite SemVer_repr_unfold, Pv. reflexivity.
  - intros my p Pm Pp. apply raise_error_printable; assumption.
Qed.

Lemma X16_witness :
  from_str "0.43.1-abc123" = ret (mkSemVer 0 43 1)
  /\ SemVer_repr (mkSemVer 0 43 1) = ret (SemVer_str (mkSemVer 0 43 1)).
Proof.
  refine (conj eq_refl _).
  exact (proj1 (proj2 (X16_parsed_versions_can_be_written
                         "0.43.1-abc123" (mkSemVer 0 43 1) eq_refl))).
Defined.
